(** * ZewailAI: the streamed-response post-processing pipeline

    A shallow embedding of [src/utils/citationProcessor.ts] (the citation
    injector [processCitedContent] and the table extractor
    [extractAndParseMarkdownTable] with its helpers [parseRow],
    [isSeparatorLine] and [_internalParseMarkdownForTable]) and of the
    source-merging step of [handleSearch], followed by the theorems that
    settle the specification's claims about them.

    Conventions of the embedding:
    - a JavaScript string is the list of its UTF-16 code units ([jsstring]);
    - a citation index ([startIndex], [endIndex]) is an integer of [Z]: the
      API sends character offsets. [NaN], infinities and fractions are not
      represented;
    - [null]/[undefined] arguments and absent optional fields are [None];
    - [JSON.parse] is a function to [option]: [None] stands for the
      [SyntaxError] it throws. *)

From Stdlib Require Import Ascii String DecimalString DecimalPos DecimalZ.
From Stdlib Require Import List NArith ZArith Lia Bool.
Import ListNotations.

Set Warnings "-register-all".

(** ** JavaScript strings and the built-ins the code calls *)

Definition jsstring := list N.

(** A literal of the source text, as code units (ASCII literals only). *)
Definition js (s : string) : jsstring :=
  map N_of_ascii (list_ascii_of_string s).

(** The same, with an apostrophe written for each double quote of the
    text. *)
Definition jsq (s : string) : jsstring :=
  map (fun c => if N.eqb c 39 then 34%N else c) (js s).

Fixpoint jsstring_eqb (a b : jsstring) : bool :=
  match a, b with
  | [], [] => true
  | x :: a', y :: b' => N.eqb x y && jsstring_eqb a' b'
  | _, _ => false
  end.

Module Char.
Definition tab : N := 9.
Definition lf : N := 10.
Definition cr : N := 13.
Definition space : N := 32.
Definition quote : N := 34.
Definition dash : N := 45.
Definition colon : N := 58.
Definition backslash : N := 92.
Definition backtick : N := 96.
Definition pipe : N := 124.
End Char.

(** [\s] of a regular expression and the characters [String.prototype.trim]
    removes: ECMAScript WhiteSpace and LineTerminator. *)
Definition is_ws (c : N) : bool :=
  ((9 <=? c) && (c <=? 13) || (c =? 32) || (c =? 160) || (c =? 5760)
   || (8192 <=? c) && (c <=? 8202) || (c =? 8232) || (c =? 8233)
   || (c =? 8239) || (c =? 8287) || (c =? 12288) || (c =? 65279))%N.

Fixpoint dropWhile (p : N -> bool) (s : jsstring) : jsstring :=
  match s with
  | c :: s' => if p c then dropWhile p s' else s
  | [] => []
  end.

Definition trimStart (s : jsstring) : jsstring := dropWhile is_ws s.
Definition trimEnd (s : jsstring) : jsstring := rev (dropWhile is_ws (rev s)).
Definition trim (s : jsstring) : jsstring := trimEnd (trimStart s).

(** [s.includes(c)] for a one-character needle. *)
Definition includes (c : N) (s : jsstring) : bool := existsb (N.eqb c) s.

(** [s.split(c)] for a one-character separator: never the empty array. *)
Fixpoint split (sep : N) (s : jsstring) : list jsstring :=
  match s with
  | [] => [[]]
  | c :: s' =>
      if N.eqb c sep then [] :: split sep s'
      else match split sep s' with
           | seg :: segs => (c :: seg) :: segs
           | [] => [[c]]
           end
  end.

(** [parts.join(sep)]. *)
Fixpoint join (sep : jsstring) (parts : list jsstring) : jsstring :=
  match parts with
  | [] => []
  | [p] => p
  | p :: ps => p ++ sep ++ join sep ps
  end.

(** [s.substring(start, end)]: both arguments are clamped to [0, length] and
    swapped when [start > end]. *)
Definition clamp (len : nat) (i : Z) : nat := Nat.min (Z.to_nat i) len.

Definition substring (s : jsstring) (start end_ : Z) : jsstring :=
  let a := clamp (length s) start in
  let b := clamp (length s) end_ in
  firstn (Nat.max a b - Nat.min a b) (skipn (Nat.min a b) s).

(** [s.substring(start)]. *)
Definition substringFrom (s : jsstring) (start : Z) : jsstring :=
  skipn (clamp (length s) start) s.

(** [`${n}`] for a non-negative integer. *)
Definition decimal (n : nat) : jsstring :=
  js (NilZero.string_of_uint (Nat.to_uint n)).

(** ** A JavaScript [Map] with string keys

    Insertion-ordered; [set] on a key already present replaces the value
    and keeps the key's position. *)
Module JSMap.
Section Defs.
Variable V : Type.
Definition t := list (jsstring * V).

Fixpoint set (k : jsstring) (v : V) (m : t) : t :=
      match m with
      | [] => [(k, v)]
      | (k', v') :: m' =>
          if jsstring_eqb k' k then (k, v) :: m' else (k', v') :: set k v m'
      end.

Fixpoint get (k : jsstring) (m : t) : option V :=
      match m with
      | [] => None
      | (k', v') :: m' => if jsstring_eqb k' k then Some v' else get k m'
      end.

Definition values (m : t) : list V := map snd m.
Definition keys (m : t) : list jsstring := map fst m.

    (** [new Map(entries)]. *)
Definition ofEntries (entries : list (jsstring * V)) : t :=
      fold_left (fun m kv => set (fst kv) (snd kv) m) entries [].
End Defs.
Arguments set {V} k v m.
Arguments get {V} k m.
Arguments values {V} m.
Arguments keys {V} m.
Arguments ofEntries {V} entries.
End JSMap.

(** ** The citation injector ([processCitedContent]) *)

Module Source.
Record t := { title : jsstring; uri : jsstring }.
End Source.

Module Citation.
Record t := {
  startIndex : option Z;
  endIndex : option Z;
  uri : jsstring;
  license : option jsstring
}.
End Citation.

(** The values of [uriToSourceData]: [{ index, title: source.title }]. *)
Module SourceData.
Record t := { index : nat; title : jsstring }.
End SourceData.

(** A citation that passed the [typeof c.startIndex === 'number'] guard,
    spread together with [sourceIndex] and [sourceTitle]. *)
Module Processed.
Record t := {
  startIndex : Z;
  endIndex : option Z;
  uri : jsstring;
  license : option jsstring;
  sourceIndex : nat;
  sourceTitle : jsstring
}.
End Processed.

(** [array.map((x, index) => f x index)]. *)
Definition mapi {A B : Type} (f : A -> nat -> B) (l : list A) : list B :=
  map (fun ix => f (snd ix) (fst ix)) (combine (seq 0 (length l)) l).

Definition uriToSourceData (sources : list Source.t) : JSMap.t SourceData.t :=
  JSMap.ofEntries
    (mapi (fun source index =>
             (Source.uri source,
              {| SourceData.index := index;
                 SourceData.title := Source.title source |}))
          sources).

(** [typeof c.startIndex === 'number']. *)
Definition hasNumericStart (c : Citation.t) : bool :=
  match Citation.startIndex c with Some _ => true | None => false end.

(** The callback of [.map]: [null] is [None]. *)
Definition attachSource (m : JSMap.t SourceData.t) (citation : Citation.t)
  : option Processed.t :=
  match Citation.startIndex citation with
  | None => None
  | Some start =>
      match JSMap.get (Citation.uri citation) m with
      | None => None
      | Some sourceData =>
          Some {| Processed.startIndex := start;
                  Processed.endIndex := Citation.endIndex citation;
                  Processed.uri := Citation.uri citation;
                  Processed.license := Citation.license citation;
                  Processed.sourceIndex := SourceData.index sourceData;
                  Processed.sourceTitle := SourceData.title sourceData |}
      end
  end.

(** [.filter(c => c !== null)]. *)
Fixpoint nonNull {A : Type} (l : list (option A)) : list A :=
  match l with
  | [] => []
  | Some x :: l' => x :: nonNull l'
  | None :: l' => nonNull l'
  end.

(** [.sort((a, b) => a.startIndex - b.startIndex)]: the sort of an array is
    stable, so the result is the one of a stable insertion sort. *)
Fixpoint insertByStart (c : Processed.t) (l : list Processed.t)
  : list Processed.t :=
  match l with
  | [] => [c]
  | d :: l' =>
      if (Processed.startIndex c <=? Processed.startIndex d)%Z then c :: l
      else d :: insertByStart c l'
  end.

Definition sortByStart (l : list Processed.t) : list Processed.t :=
  fold_right insertByStart [] l.

Definition processedCitations
  (citations : list Citation.t) (sources : list Source.t) : list Processed.t :=
  sortByStart
    (nonNull (map (attachSource (uriToSourceData sources))
                  (filter hasNumericStart citations))).

(** [citation.endIndex || citation.startIndex]: an absent [endIndex] and
    the number [0] are both falsy. *)
Definition insertionPoint (citation : Processed.t) : Z :=
  match Processed.endIndex citation with
  | Some e => if (e =? 0)%Z then Processed.startIndex citation else e
  | None => Processed.startIndex citation
  end.

(** The strings pushed on [resultParts], tagged by the statement that
    pushes them: a slice of the content or a citation link. *)
Inductive part :=
| Text (s : jsstring)
| Link (sourceIndex : nat).

(** [`[${citationNumber}](#citation-${citation.sourceIndex})`] with
    [citationNumber = citation.sourceIndex + 1]. *)
Definition citationMarkdownLink (sourceIndex : nat) : jsstring :=
  js "[" ++ decimal (sourceIndex + 1) ++ js "](#citation-"
     ++ decimal sourceIndex ++ js ")".

Definition partString (p : part) : jsstring :=
  match p with
  | Text s => s
  | Link i => citationMarkdownLink i
  end.

(** One iteration of the [for ... of] loop on the state
    [(resultParts, lastIndex)]. *)
Definition walkStep (content : jsstring) (st : list part * Z)
  (citation : Processed.t) : list part * Z :=
  let (resultParts, lastIndex) := st in
  if (insertionPoint citation <? lastIndex)%Z then st
  else (resultParts
          ++ [Text (substring content lastIndex (insertionPoint citation));
              Link (Processed.sourceIndex citation)],
        insertionPoint citation).

Definition walk (content : jsstring) (cs : list Processed.t)
  (st : list part * Z) : list part * Z :=
  fold_left (walkStep content) cs st.

(** [resultParts] when the function reaches its last line. *)
Definition resultParts (content : jsstring) (cs : list Processed.t)
  : list part :=
  let (parts, lastIndex) := walk content cs ([], 0%Z) in
  parts ++ [Text (substringFrom content lastIndex)].

Definition processCitedContent (content : jsstring)
  (citations : option (list Citation.t)) (sources : option (list Source.t))
  : jsstring :=
  match citations, sources with
  | Some cs, Some ss =>
      if (length cs =? 0) || (length ss =? 0) then content
      else
        let processed := processedCitations cs ss in
        if length processed =? 0 then content
        else join [] (map partString (resultParts content processed))
  | _, _ => content
  end.

(** ** The table extractor: rows and separator lines *)

(** [s.replace(/^\||\|$/g, '')]: a pipe at the start is removed, then a pipe
    at the end of what follows it. *)
Definition stripLeadingPipe (s : jsstring) : jsstring :=
  match s with
  | c :: s' => if N.eqb c Char.pipe then s' else s
  | [] => []
  end.

Definition stripTrailingPipe (s : jsstring) : jsstring :=
  match rev s with
  | c :: r => if N.eqb c Char.pipe then rev r else s
  | [] => s
  end.

Definition stripPipes (s : jsstring) : jsstring :=
  stripTrailingPipe (stripLeadingPipe s).

(** [s.replace(/^\s*\||\|\s*$/g, '')]: leading white space followed by a pipe
    is removed, then a pipe followed by white space up to the end. *)
Definition stripLeadingWsPipe (s : jsstring) : jsstring :=
  match dropWhile is_ws s with
  | c :: s' => if N.eqb c Char.pipe then s' else s
  | [] => s
  end.

Definition stripTrailingPipeWs (s : jsstring) : jsstring :=
  match dropWhile is_ws (rev s) with
  | c :: r => if N.eqb c Char.pipe then rev r else s
  | [] => s
  end.

Definition stripWsPipes (s : jsstring) : jsstring :=
  stripTrailingPipeWs (stripLeadingWsPipe s).

Definition parseRow (rowString : jsstring) : list jsstring :=
  let cleanedRow := trim (stripPipes (trim rowString)) in
  map trim (split Char.pipe cleanedRow).

(** [:?] *)
Definition optColon (s : jsstring) : jsstring :=
  match s with
  | c :: s' => if N.eqb c Char.colon then s' else s
  | [] => []
  end.

(** [/^\s*:?-+:?\s*$/.test(s)]. White space, colon and dash are pairwise
    distinct, so each greedy quantifier takes all it can and the match
    never backtracks. *)
Definition segmentMatches (s : jsstring) : bool :=
  let s1 := dropWhile is_ws s in
  let s2 := optColon s1 in
  match s2 with
  | c :: _ =>
      if N.eqb c Char.dash then
        let s3 := dropWhile (N.eqb Char.dash) s2 in
        let s4 := optColon s3 in
        match dropWhile is_ws s4 with
        | [] => true
        | _ :: _ => false
        end
      else false
  | [] => false
  end.

Definition isSeparatorLine (line : jsstring) : bool :=
  let trimmedLine := trim line in
  if negb (includes Char.dash trimmedLine) || negb (includes Char.pipe trimmedLine)
  then false
  else
    let segments := split Char.pipe (stripPipes trimmedLine) in
    (0 <? length segments) && forallb segmentMatches segments.
(** ** JSON values and [JSON.parse] *)

(** A number literal is kept as its exact decimal value
    [(-1)^neg * mantissa * 10^exp10]. *)
Inductive json :=
| JNull
| JBool (b : bool)
| JNum (neg : bool) (mantissa : N) (exp10 : Z)
| JStr (s : jsstring)
| JArr (items : list json)
| JObj (members : list (jsstring * json)).

(** JSON white space: tab, line feed, carriage return, space. *)
Definition is_json_ws (c : N) : bool :=
  ((c =? 9) || (c =? 10) || (c =? 13) || (c =? 32))%N.

Definition skipWs (s : jsstring) : jsstring := dropWhile is_json_ws s.

Definition is_digit (c : N) : bool := ((48 <=? c) && (c <=? 57))%N.

Definition hexValue (c : N) : option N :=
  if is_digit c then Some (c - 48)%N
  else if ((97 <=? c) && (c <=? 102))%N then Some (c - 87)%N
  else if ((65 <=? c) && (c <=? 70))%N then Some (c - 55)%N
  else None.

Definition hex4 (a b c d : N) : option N :=
  match hexValue a, hexValue b, hexValue c, hexValue d with
  | Some x, Some y, Some z, Some w => Some (((x * 16 + y) * 16 + z) * 16 + w)%N
  | _, _, _, _ => None
  end.

(** The character a one-letter escape stands for. *)
Definition escapeChar (c : N) : option N :=
  if N.eqb c Char.quote then Some Char.quote
  else if N.eqb c Char.backslash then Some Char.backslash
  else if (c =? 47)%N then Some 47%N     (* solidus *)
  else if (c =? 98)%N then Some 8%N      (* b: backspace *)
  else if (c =? 102)%N then Some 12%N    (* f: form feed *)
  else if (c =? 110)%N then Some 10%N    (* n: line feed *)
  else if (c =? 114)%N then Some 13%N    (* r: carriage return *)
  else if (c =? 116)%N then Some 9%N     (* t: tab *)
  else None.

Definition consTo (c : N) (r : option (jsstring * jsstring))
  : option (jsstring * jsstring) :=
  match r with
  | Some (str, rest) => Some (c :: str, rest)
  | None => None
  end.

(** The characters of a string literal after its opening quote, up to the
    closing quote: the string's value and the input left. *)
Fixpoint parseStringBody (s : jsstring) : option (jsstring * jsstring) :=
  match s with
  | [] => None
  | c :: s' =>
      if N.eqb c Char.quote then Some ([], s')
      else if N.eqb c Char.backslash then
        match s' with
        | [] => None
        | e :: s'' =>
            if (e =? 117)%N then
              match s'' with
              | h1 :: h2 :: h3 :: h4 :: r =>
                  match hex4 h1 h2 h3 h4 with
                  | Some u => consTo u (parseStringBody r)
                  | None => None
                  end
              | _ => None
              end
            else
              match escapeChar e with
              | Some x => consTo x (parseStringBody s'')
              | None => None
              end
        end
      else if (c <? 32)%N then None
      else consTo c (parseStringBody s')
  end.

(** The longest run of decimal digits at the start of the input. *)
Fixpoint digits (s : jsstring) : list N * jsstring :=
  match s with
  | c :: s' =>
      if is_digit c then let (ds, r) := digits s' in ((c - 48)%N :: ds, r)
      else ([], s)
  | [] => ([], [])
  end.

Definition digitsValue (ds : list N) : N :=
  fold_left (fun acc d => (acc * 10 + d)%N) ds 0%N.

(** [int]: a single [0], or a digit from 1 to 9 and any digits. *)
Definition parseInt (s : jsstring) : option (list N * jsstring) :=
  match s with
  | c :: s' =>
      if (c =? 48)%N then Some ([0%N], s')
      else if is_digit c then Some (digits s)
      else None
  | [] => None
  end.

(** [frac]: nothing, or a dot and at least one digit. *)
Definition parseFrac (s : jsstring) : option (list N * jsstring) :=
  match s with
  | c :: s' =>
      if (c =? 46)%N then
        match digits s' with
        | ([], _) => None
        | (ds, r) => Some (ds, r)
        end
      else Some ([], s)
  | [] => Some ([], [])
  end.

(** [exp]: nothing, or [e]/[E], an optional sign and at least one digit. *)
Definition parseExp (s : jsstring) : option (Z * jsstring) :=
  match s with
  | c :: s' =>
      if ((c =? 101) || (c =? 69))%N then
        let (negative, s'') :=
          match s' with
          | sg :: t =>
              if (sg =? 45)%N then (true, t)
              else if (sg =? 43)%N then (false, t)
              else (false, s')
          | [] => (false, s')
          end in
        match digits s'' with
        | ([], _) => None
        | (ds, r) =>
            let v := Z.of_N (digitsValue ds) in
            Some (if negative then (- v)%Z else v, r)
        end
      else Some (0%Z, s)
  | [] => Some (0%Z, [])
  end.

Definition parseNumber (s : jsstring) : option (json * jsstring) :=
  let (neg, s1) :=
    match s with
    | c :: s' => if (c =? 45)%N then (true, s') else (false, s)
    | [] => (false, s)
    end in
  match parseInt s1 with
  | None => None
  | Some (ints, s2) =>
      match parseFrac s2 with
      | None => None
      | Some (fracs, s3) =>
          match parseExp s3 with
          | None => None
          | Some (e, s4) =>
              Some (JNum neg (digitsValue (ints ++ fracs))
                         (e - Z.of_nat (length fracs))%Z, s4)
          end
      end
  end.

Fixpoint stripPrefix (p s : jsstring) : option jsstring :=
  match p, s with
  | [], _ => Some s
  | x :: p', y :: s' => if N.eqb x y then stripPrefix p' s' else None
  | _ :: _, [] => None
  end.

Definition parseLiteral (s : jsstring) : option (json * jsstring) :=
  match stripPrefix (js "true") s with
  | Some r => Some (JBool true, r)
  | None =>
      match stripPrefix (js "false") s with
      | Some r => Some (JBool false, r)
      | None =>
          match stripPrefix (js "null") s with
          | Some r => Some (JNull, r)
          | None => None
          end
      end
  end.

(** Recursive descent on the JSON grammar. Every call consumes a character
    of the input before it calls again, so [fuel] bounds the nesting. *)
Fixpoint parseValue (fuel : nat) (s : jsstring) : option (json * jsstring) :=
  match fuel with
  | O => None
  | S fuel' =>
      match skipWs s with
      | [] => None
      | c :: r =>
          if (c =? 123)%N then
            match skipWs r with
            | c' :: r' =>
                if (c' =? 125)%N then Some (JObj [], r')
                else parseMembers fuel' (c' :: r') []
            | [] => None
            end
          else if (c =? 91)%N then
            match skipWs r with
            | c' :: r' =>
                if (c' =? 93)%N then Some (JArr [], r')
                else parseElements fuel' (c' :: r') []
            | [] => None
            end
          else if N.eqb c Char.quote then
            match parseStringBody r with
            | Some (str, r') => Some (JStr str, r')
            | None => None
            end
          else if (c =? 45)%N || is_digit c then parseNumber (c :: r)
          else parseLiteral (c :: r)
      end
  end
with parseElements (fuel : nat) (s : jsstring) (acc : list json)
  : option (json * jsstring) :=
  match fuel with
  | O => None
  | S fuel' =>
      match parseValue fuel' s with
      | None => None
      | Some (v, r) =>
          match skipWs r with
          | c :: r' =>
              if (c =? 44)%N then parseElements fuel' r' (v :: acc)
              else if (c =? 93)%N then Some (JArr (rev (v :: acc)), r')
              else None
          | [] => None
          end
      end
  end
with parseMembers (fuel : nat) (s : jsstring) (acc : list (jsstring * json))
  : option (json * jsstring) :=
  match fuel with
  | O => None
  | S fuel' =>
      match skipWs s with
      | q :: s1 =>
          if N.eqb q Char.quote then
            match parseStringBody s1 with
            | None => None
            | Some (key, s2) =>
                match skipWs s2 with
                | c :: s3 =>
                    if N.eqb c Char.colon then
                      match parseValue fuel' s3 with
                      | None => None
                      | Some (v, r) =>
                          match skipWs r with
                          | d :: r' =>
                              if (d =? 44)%N
                              then parseMembers fuel' r' ((key, v) :: acc)
                              else if (d =? 125)%N
                              then Some (JObj (rev ((key, v) :: acc)), r')
                              else None
                          | [] => None
                          end
                      end
                    else None
                | [] => None
                end
            end
          else None
      | [] => None
      end
  end.

(** [JSON.parse(text)]: one value between optional white space; [None] when
    it throws a [SyntaxError]. *)
Definition JSON_parse (text : jsstring) : option json :=
  match parseValue (2 * length text + 2) text with
  | Some (v, r) =>
      match skipWs r with
      | [] => Some v
      | _ :: _ => None
      end
  | None => None
  end.

(** [v.key] on a parsed value; [None] is [undefined]. When a key is repeated
    in an object literal the last member is the property's value. *)
Fixpoint lookupLast (key : jsstring) (members : list (jsstring * json))
  : option json :=
  match members with
  | [] => None
  | (k, v) :: ms =>
      match lookupLast key ms with
      | Some v' => Some v'
      | None => if jsstring_eqb k key then Some v else None
      end
  end.

Definition prop (key : jsstring) (v : json) : option json :=
  match v with
  | JObj members => lookupLast key members
  | _ => None
  end.

(** A number is falsy when it is zero as a double: a literal with a zero
    mantissa, or one of magnitude at most [2^-1075], which rounds to zero. *)
Definition numberIsZero (mantissa : N) (exp10 : Z) : bool :=
  (mantissa =? 0)%N
  || ((exp10 <? 0)%Z
      && (Z.of_N mantissa * 2 ^ 1075 <=? 10 ^ (- exp10))%Z).

(** Truthiness of a value that may be [undefined]. *)
Definition truthy (v : option json) : bool :=
  match v with
  | None => false
  | Some JNull => false
  | Some (JBool b) => b
  | Some (JNum _ m e) => negb (numberIsZero m e)
  | Some (JStr s) => negb (length s =? 0)
  | Some (JArr _) => true
  | Some (JObj _) => true
  end.
(** ** The table extractor: the grid scanner and the fenced block *)

(** [headers] and [rows] of a table. A table cast from a parsed JSON value
    holds whatever the arrays [table.headers] and [table.rows] hold; the grid
    scanner builds an array of strings and an array of arrays of strings. *)
Record ComparisonTableData := {
  headers : list json;
  rows : list json
}.

Record Extraction := {
  remainingText : jsstring;
  table : option ComparisonTableData
}.

(** The inner [for] loop: the rows pushed on [rowsData] from line [i + 2]
    on, for a header of [width] cells. *)
Fixpoint collectRows (width : nat) (lines : list jsstring)
  : list (list jsstring) :=
  match lines with
  | [] => []
  | rowLine :: rest =>
      if negb (includes Char.pipe rowLine) then []
      else
        let row := parseRow rowLine in
        if negb (length row =? width) then []
        else row :: collectRows width rest
  end.

(** The outer [for] loop from index [i] on: [None] when it ends with
    [tableStartIndex === -1], else [tableStartIndex], [headers] and
    [rowsData] at the [break]. *)
Fixpoint findTable (i : nat) (lines : list jsstring)
  : option (nat * list jsstring * list (list jsstring)) :=
  match lines with
  | potentialHeaderLine :: ((potentialSeparatorLine :: following) as rest) =>
      if isSeparatorLine potentialSeparatorLine then
        let potentialHeaders := parseRow potentialHeaderLine in
        let separatorCols :=
          split Char.pipe (stripWsPipes potentialSeparatorLine) in
        if (0 <? length potentialHeaders)
           && (length potentialHeaders =? length separatorCols)
        then Some (i, potentialHeaders,
                   collectRows (length potentialHeaders) following)
        else findTable (S i) rest
      else findTable (S i) rest
  | _ => None
  end.

(** [array.filter((_, index) => keep index)], counting from [i]. *)
Fixpoint filterIndex {A : Type} (keep : nat -> bool) (i : nat) (l : list A)
  : list A :=
  match l with
  | [] => []
  | x :: l' =>
      if keep i then x :: filterIndex keep (S i) l'
      else filterIndex keep (S i) l'
  end.

Definition gridTable (hs : list jsstring) (rowsData : list (list jsstring))
  : ComparisonTableData :=
  {| headers := map JStr hs;
     rows := map (fun row => JArr (map JStr row)) rowsData |}.

Definition _internalParseMarkdownForTable (markdown : jsstring) : Extraction :=
  let lines := split Char.lf markdown in
  match findTable 0 lines with
  | None => {| remainingText := markdown; table := None |}
  | Some (tableStartIndex, hs, rowsData) =>
      if length rowsData =? 0
      then {| remainingText := markdown; table := None |}
      else
        let tableEndIndex := tableStartIndex + 1 + length rowsData in
        let remainingLines :=
          filterIndex
            (fun index => (index <? tableStartIndex) || (tableEndIndex <? index))
            0 lines in
        {| remainingText := trim (join [Char.lf] remainingLines);
           table := Some (gridTable hs rowsData) |}
  end.

(** The regular expression [/```(?:json)?\s*([\s\S]*?)\s*```/], matched the
    way a backtracking matcher does: each piece takes a continuation for
    what follows it and tries its alternatives in order. *)
Definition fence : jsstring := [Char.backtick; Char.backtick; Char.backtick].

(** Greedy [\s*] followed by [k]. *)
Fixpoint wsStar {A : Type} (k : jsstring -> option A) (s : jsstring)
  : option A :=
  match s with
  | c :: s' =>
      if is_ws c then
        match wsStar k s' with
        | Some r => Some r
        | None => k s
        end
      else k s
  | [] => k s
  end.

(** Lazy [([\s\S]*?)] followed by [k]: the captured text and [k]'s result. *)
Fixpoint lazyAny {A : Type} (k : jsstring -> option A) (s : jsstring)
  : option (jsstring * A) :=
  match k s with
  | Some r => Some ([], r)
  | None =>
      match s with
      | c :: s' =>
          match lazyAny k s' with
          | Some (captured, r) => Some (c :: captured, r)
          | None => None
          end
      | [] => None
      end
  end.

(** [\s*```]: the input after the closing fence. *)
Definition closingFence (s : jsstring) : option jsstring :=
  wsStar (stripPrefix fence) s.

(** [\s*([\s\S]*?)\s*```]: group 1 and the input after the match. *)
Definition blockBody (s : jsstring) : option (jsstring * jsstring) :=
  wsStar (lazyAny closingFence) s.

(** The whole expression at the start of [s]. *)
Definition blockAt (s : jsstring) : option (jsstring * jsstring) :=
  match stripPrefix fence s with
  | None => None
  | Some s1 =>
      match
        match stripPrefix (js "json") s1 with
        | Some s2 => blockBody s2
        | None => None
        end
      with
      | Some r => Some r
      | None => blockBody s1
      end
  end.

(** [blockMatch[0]] and [blockMatch[1]]. *)
Record BlockMatch := {
  matched : jsstring;
  group1 : jsstring
}.

(** [text.match(jsonBlockRegex)]: the match at the leftmost position that
    has one; [None] is [null]. *)
Fixpoint matchJsonBlock (text : jsstring) : option BlockMatch :=
  match blockAt text with
  | Some (captured, rest) =>
      Some {| matched := firstn (length text - length rest) text;
              group1 := captured |}
  | None =>
      match text with
      | _ :: text' => matchJsonBlock text'
      | [] => None
      end
  end.

(** [s.replace(pattern, '')] for a string pattern: its first occurrence is
    removed. *)
Fixpoint removeFirst (pattern s : jsstring) : jsstring :=
  match stripPrefix pattern s with
  | Some rest => rest
  | None =>
      match s with
      | c :: s' => c :: removeFirst pattern s'
      | [] => []
      end
  end.

(** The value of [table] after the conditional expression, when the guard
    [parsedJson && parsedJson.table] lets it be reached; [None] is [null]. *)
Definition validatedTable (parsedJson : json) : option ComparisonTableData :=
  if truthy (Some parsedJson) && truthy (prop (js "table") parsedJson) then
    match prop (js "table") parsedJson with
    | Some ((JObj _ | JArr _) as t) =>
        match prop (js "headers") t, prop (js "rows") t with
        | Some (JArr hs), Some (JArr rs) => Some {| headers := hs; rows := rs |}
        | _, _ => None
        end
    | _ => None
    end
  else None.

(** [[a, b].filter(Boolean).join('\n\n')]. *)
Definition joinNonEmpty (a b : jsstring) : jsstring :=
  join [Char.lf; Char.lf] (filter (fun s => negb (length s =? 0)) [a; b]).

Definition extractAndParseMarkdownTable (responseText : jsstring) : Extraction :=
  if length responseText =? 0
  then {| remainingText := []; table := None |}
  else
    let textToParse := trim responseText in
    match matchJsonBlock textToParse with
    | None => _internalParseMarkdownForTable responseText
    | Some blockMatch =>
        if negb (length (matched blockMatch) =? 0)
           && negb (length (group1 blockMatch) =? 0)
        then
          let jsonString := group1 blockMatch in
          match JSON_parse jsonString with
          | Some parsedJson =>
              match validatedTable parsedJson with
              | Some t =>
                  let textOutsideBlock :=
                    trim (removeFirst (matched blockMatch) textToParse) in
                  let textInsideBlock :=
                    match prop (js "text") parsedJson with
                    | Some (JStr text) => trim text
                    | _ => []
                    end in
                  {| remainingText := joinNonEmpty textOutsideBlock textInsideBlock;
                     table := Some t |}
              | None => _internalParseMarkdownForTable responseText
              end
          | None =>
              let textOutsideBlock :=
                trim (removeFirst (matched blockMatch) textToParse) in
              let result := _internalParseMarkdownForTable textOutsideBlock in
              match table result with
              | Some _ => result
              | None => _internalParseMarkdownForTable responseText
              end
          end
        else _internalParseMarkdownForTable responseText
    end.

(** ** Merging the sources of the stream ([handleSearch])

    [if (chunk.sources) chunk.sources.forEach(s => sourcesMap.set(s.uri, s))]
    for each chunk in turn, and [Array.from(sourcesMap.values())] at the
    end. *)
Definition setSource (sourcesMap : JSMap.t Source.t) (s : Source.t)
  : JSMap.t Source.t :=
  JSMap.set (Source.uri s) s sourcesMap.

Definition mergeSources (sourcesMap : JSMap.t Source.t)
  (sources : option (list Source.t)) : JSMap.t Source.t :=
  match sources with
  | Some l => fold_left setSource l sourcesMap
  | None => sourcesMap
  end.

Definition mergeChunks (chunks : list (option (list Source.t)))
  : JSMap.t Source.t :=
  fold_left mergeSources chunks [].

Definition finalSources (chunks : list (option (list Source.t)))
  : list Source.t :=
  JSMap.values (mergeChunks chunks).

(** ** The text direction classifier ([getTextDirection]) *)

Inductive Direction := rtl | ltr.

(** The character class [[\u0600-\u06FF]]. *)
Definition isArabic (c : N) : bool := ((1536 <=? c) && (c <=? 1791))%N.

Definition getTextDirection (text : jsstring) : Direction :=
  if length text =? 0 then ltr
  else if existsb isArabic text then rtl else ltr.

(** ** The stream loop of [handleSearch]: text, sources and citations *)

(** [`${z}`] for an integer. *)
Definition numberToString (z : Z) : jsstring :=
  js (NilZero.string_of_int (Z.to_int z)).

(** The key [`${c.startIndex}-${c.uri}`] of [citationsMap]. *)
Definition citationKey (c : Citation.t) : jsstring :=
  match Citation.startIndex c with
  | Some z => numberToString z
  | None => js "undefined"
  end ++ js "-" ++ Citation.uri c.

Definition setCitation (citationsMap : JSMap.t Citation.t) (c : Citation.t)
  : JSMap.t Citation.t :=
  JSMap.set (citationKey c) c citationsMap.

Definition mergeCitations (citationsMap : JSMap.t Citation.t)
  (citations : option (list Citation.t)) : JSMap.t Citation.t :=
  match citations with
  | Some l => fold_left setCitation l citationsMap
  | None => citationsMap
  end.

(** A chunk of [performSmartSearch]: each field may be absent. *)
Module Chunk.
Record t := {
  text : option jsstring;
  sources : option (list Source.t);
  citations : option (list Citation.t)
}.
End Chunk.

(** The variables the loop updates. *)
Module Stream.
Record t := {
  fullText : jsstring;
  sourcesMap : JSMap.t Source.t;
  citationsMap : JSMap.t Citation.t
}.
End Stream.

(** The body of [for await (const chunk of stream)]:
    [fullText += chunk.text || ''], then the two [forEach]. *)
Definition consumeChunk (st : Stream.t) (chunk : Chunk.t) : Stream.t :=
  {| Stream.fullText :=
       Stream.fullText st
         ++ match Chunk.text chunk with Some t => t | None => [] end;
     Stream.sourcesMap :=
       mergeSources (Stream.sourcesMap st) (Chunk.sources chunk);
     Stream.citationsMap :=
       mergeCitations (Stream.citationsMap st) (Chunk.citations chunk) |}.

Definition consumeStream (chunks : list Chunk.t) : Stream.t :=
  fold_left consumeChunk chunks
    {| Stream.fullText := []; Stream.sourcesMap := [];
       Stream.citationsMap := [] |}.

(** The model message once the stream has ended: the text is split by
    [extractAndParseMarkdownTable], the sources and citations are the
    values of the two maps. *)
Module Message.
Record t := {
  content : jsstring;
  table : option ComparisonTableData;
  sources : list Source.t;
  citations : list Citation.t
}.
End Message.

Definition finalMessage (st : Stream.t) : Message.t :=
  let extraction := extractAndParseMarkdownTable (Stream.fullText st) in
  {| Message.content := remainingText extraction;
     Message.table := table extraction;
     Message.sources := JSMap.values (Stream.sourcesMap st);
     Message.citations := JSMap.values (Stream.citationsMap st) |}.

(** ** Sources read back from the history ([parseSources])

    The argument is a column of type [Json | null]: [None] is [null], a
    string is [JStr]. *)
Definition validSource (item : json) : option Source.t :=
  if truthy (Some item) then
    match prop (js "title") item, prop (js "uri") item with
    | Some (JStr title), Some (JStr uri) =>
        Some {| Source.title := title; Source.uri := uri |}
    | _, _ => None
    end
  else None.

Definition parseSources (sources : option json) : option (list Source.t) :=
  if negb (truthy sources) then None
  else
    let data :=
      match sources with
      | Some (JStr s) => JSON_parse s
      | other => other
      end in
    match data with
    | Some (JArr items) =>
        let validSources := nonNull (map validSource items) in
        if 0 <? length validSources then Some validSources else None
    | _ => None
    end.

(** ** Vocabulary of the statements *)

(** The text of [resultParts] once the citation links are taken out. *)
Definition isText (p : part) : bool :=
  match p with Text _ => true | Link _ => false end.

Definition withoutLinks (parts : list part) : list part := filter isText parts.

(** The slices of text of [resultParts], concatenated. *)
Definition textOf (parts : list part) : jsstring :=
  concat (map partString (withoutLinks parts)).

(** The number of citation links pushed on [resultParts]. *)
Definition linkCount (parts : list part) : nat :=
  length (filter (fun p => negb (isText p)) parts).

(** A citation survives the filtering when its [startIndex] is a number and
    some source of the list has its [uri]. *)
Definition knownUri (sources : list Source.t) (u : jsstring) : bool :=
  existsb (fun s => jsstring_eqb (Source.uri s) u) sources.

Definition survives (sources : list Source.t) (c : Citation.t) : bool :=
  hasNumericStart c && knownUri sources (Citation.uri c).

Definition mkCitation (startIndex endIndex : option Z) (uri : string)
  : Citation.t :=
  {| Citation.startIndex := startIndex;
     Citation.endIndex := endIndex;
     Citation.uri := js uri;
     Citation.license := None |}.

Definition mkSource (title uri : string) : Source.t :=
  {| Source.title := js title; Source.uri := js uri |}.

(** The sources [[{uri:"a",title:"A"},{uri:"b",title:"B"}]]. *)
Definition sourcesAB : list Source.t := [mkSource "A" "a"; mkSource "B" "b"].

(** A citation whose [endIndex] is present and equal to 0. *)
Definition citationEndZero : Citation.t := mkCitation (Some 5%Z) (Some 0%Z) "a".

(** The citations [[{startIndex:3,endIndex:8,uri:"a"},
    {startIndex:5,endIndex:10,uri:"b"}]]: two overlapping spans. *)
Definition overlappingCitations : list Citation.t :=
  [mkCitation (Some 3%Z) (Some 8%Z) "a"; mkCitation (Some 5%Z) (Some 10%Z) "b"].

(** A text given by its lines. *)
Definition textOfLines (lines : list jsstring) : jsstring :=
  join [Char.lf] lines.

(** An intro paragraph, a blank line, a grid table of two columns and two
    data rows, a blank line and an outro paragraph. *)
Definition gridExample : jsstring :=
  textOfLines [js "Intro text."; []; js "| Name | Score |";
               js "| --- | --- |"; js "| Alice | 90 |"; js "| Bob | 85 |";
               []; js "Outro text."].

(** Every element of [table.rows] is an array as long as [table.headers]. *)
Definition rowsMatchHeaders (t : ComparisonTableData) : bool :=
  forallb (fun row =>
             match row with
             | JArr cells => length cells =? length (headers t)
             | _ => false
             end)
          (rows t).

(** A fenced JSON block whose table has two headers and a row of one
    cell. *)
Definition raggedJsonExample : jsstring :=
  textOfLines
    [js "```json";
     jsq "{'table':{'headers':['A','B'],'rows':[['1']]}}";
     js "```"].

(** A fenced block that parses as JSON and whose [table] has a [headers]
    that is no array and no [rows], followed by a separator line and a row
    line. *)
Definition invalidTableExample : jsstring :=
  textOfLines
    [js "```" ++ jsq "{'table':{'headers':'A'}}" ++ js "```";
     js "|---|";
     js "| x |"].

(** [textToParse.replace(blockMatch[0], '').trim()]: the text outside the
    fenced block. *)
Definition textOutsideBlock (responseText : jsstring) (blockMatch : BlockMatch)
  : jsstring :=
  trim (removeFirst (matched blockMatch) (trim responseText)).

(** The fenced block of [invalidTableExample]: the whole of its first
    line, and the payload between the fences. *)
Definition invalidTableBlock : BlockMatch :=
  {| matched := js "```" ++ jsq "{'table':{'headers':'A'}}" ++ js "```";
     group1 := jsq "{'table':{'headers':'A'}}" |}.

(** All the sources of the chunks, in order of arrival. *)
Definition arrivals (chunks : list (option (list Source.t)))
  : list Source.t :=
  flat_map (fun sources => match sources with Some l => l | None => [] end)
           chunks.

(** Every entry of the map is filed under the [uri] of its source. *)
Definition keyedByUri (m : JSMap.t Source.t) : Prop :=
  Forall (fun kv => fst kv = Source.uri (snd kv)) m.

(** Two chunks that bring the same [uri] under two titles. *)
Definition retitledChunks : list (option (list Source.t)) :=
  [Some [mkSource "First title" "u"]; Some [mkSource "Second title" "u"]].

(** The specification's separator line, in its words: after trimming the
    line and stripping one optional leading and one optional trailing pipe,
    splitting on the pipe yields at least one segment and every segment is,
    between white space, an optional colon, one or more dashes and an
    optional colon. *)
Definition optional (c : N) (present : bool) : jsstring :=
  if present then [c] else [].

Definition allWs (s : jsstring) : Prop := Forall (fun c => is_ws c = true) s.

Definition SegmentShape (segment : jsstring) : Prop :=
  exists (before after : jsstring) (colon1 colon2 : bool) (n : nat),
    allWs before /\ allWs after
    /\ segment = before ++ optional Char.colon colon1
                  ++ repeat Char.dash (S n)
                  ++ optional Char.colon colon2 ++ after.

Definition specSeparatorLine (line : jsstring) : Prop :=
  let segments := split Char.pipe (stripPipes (trim line)) in
  1 <= length segments /\ Forall SegmentShape segments.

(** The [uri]s of a list in order of first appearance, those of [seen]
    left out. *)
Fixpoint firstSeenFrom (seen l : list jsstring) : list jsstring :=
  match l with
  | [] => []
  | u :: l' =>
      if existsb (jsstring_eqb u) seen then firstSeenFrom seen l'
      else u :: firstSeenFrom (seen ++ [u]) l'
  end.

(** The insertion points of the citations, in the order they are walked,
    never go back from the cursor. *)
Fixpoint ascendingFrom (cursor : Z) (cs : list Processed.t) : bool :=
  match cs with
  | [] => true
  | c :: cs' =>
      (cursor <=? insertionPoint c)%Z && ascendingFrom (insertionPoint c) cs'
  end.

(** A source as it sits in a parsed JSON array. *)
Definition sourceToJson (s : Source.t) : json :=
  JObj [(js "title", JStr (Source.title s)); (js "uri", JStr (Source.uri s))].

(** A header and a separator followed by a blank line, then a complete
    table. *)
Definition headerWithoutRows : jsstring :=
  textOfLines [js "| A | B |"; js "|---|---|"; [];
               js "| Name | Score |"; js "| --- | --- |"; js "| Alice | 90 |"].

(** [forEach(x => map.set(key(x), x))] over a list, and the last element
    of a list filed under a key. *)
Definition setBy {A : Type} (key : A -> jsstring) (m : JSMap.t A) (x : A)
  : JSMap.t A :=
  JSMap.set (key x) x m.

Definition lastBy {A : Type} (key : A -> jsstring) (k : jsstring)
  (l : list A) : option A :=
  find (fun x => jsstring_eqb (key x) k) (rev l).

(** All the citations of the chunks, in order of arrival. *)
Definition citationArrivals (chunks : list Chunk.t) : list Citation.t :=
  flat_map (fun chunk => match Chunk.citations chunk with
                         | Some l => l
                         | None => []
                         end) chunks.

(** [chunk.text || ''] *)
Definition chunkText (chunk : Chunk.t) : jsstring :=
  match Chunk.text chunk with Some t => t | None => [] end.

(** Two chunks that bring two citations of the same [startIndex] and
    [uri], and one that differs by its [uri]. *)
Definition resentCitationChunks : list Chunk.t :=
  [{| Chunk.text := Some (js "Hello");
      Chunk.sources := Some [mkSource "A" "a"];
      Chunk.citations := Some [mkCitation (Some 1%Z) (Some 4%Z) "a"] |};
   {| Chunk.text := None;
      Chunk.sources := None;
      Chunk.citations := Some [mkCitation (Some 1%Z) (Some 5%Z) "a";
                               mkCitation (Some 1%Z) (Some 5%Z) "b"] |}].

(** Every entry of a map is filed under the key of its value. *)
Definition keyedBy {A : Type} (key : A -> jsstring) (m : JSMap.t A) : Prop :=
  Forall (fun kv => fst kv = key (snd kv)) m.

(** A text with two fenced blocks, the second a copy of the first. *)
Definition twoBlocks : jsstring :=
  js "intro ```json" ++ jsq " {'a':1} " ++ js "``` middle ```json"
     ++ jsq " {'a':1} " ++ js "``` end".

(** The shape of a matched block: the fence, an optional [json], white
    space, the captured text, white space and the fence. *)
Definition blockShape (m captured : jsstring) : Prop :=
  exists tag w1 w2,
    m = fence ++ tag ++ w1 ++ captured ++ w2 ++ fence
    /\ (tag = js "json" \/ tag = [])
    /\ allWs w1 /\ allWs w2.

(** Two consecutive lines the scanner takes for a header and its
    separator: the second is a separator line with as many columns as the
    first has cells; and a list of lines in which no two consecutive lines
    are such a pair. *)
Definition headerPair (header sep : jsstring) : bool :=
  isSeparatorLine sep
  && (length (parseRow header)
      =? length (split Char.pipe (stripWsPipes sep))).

Fixpoint noHeaderPair (lines : list jsstring) : bool :=
  match lines with
  | line :: ((next :: _) as rest) =>
      negb (headerPair line next) && noHeaderPair rest
  | _ => true
  end.

(** A line of two cells above a separator line of one column, which is
    in turn the header of a second separator line; no row follows. *)
Definition separatorAsHeader : jsstring :=
  textOfLines [js "a | b"; js "|---|"; js "|---|"; js "no row";
               js "| H |"; js "|---|"; js "| 1 |"].

(** A line above two separator lines and a row: the first line is the
    header, the second separator line is read as a row. *)
Definition separatorAsRow : jsstring :=
  textOfLines [js "x"; js "|---|"; js "|---|"; js "| a |"].

(** * Properties *)

(** ** Strings and maps *)

Lemma jsstring_eqb_eq (a b : jsstring) : jsstring_eqb a b = true <-> a = b.
Proof.
  revert b; induction a as [|x a IH]; intros [|y b]; simpl;
    try (split; [discriminate | discriminate]); try tauto.
  rewrite andb_true_iff, N.eqb_eq, IH.
  split; [intros [-> ->]; reflexivity | intros H; inversion H; auto].
Qed.

Lemma jsstring_eqb_refl (a : jsstring) : jsstring_eqb a a = true.
Proof. apply jsstring_eqb_eq; reflexivity. Qed.

Lemma jsstring_eqb_neq (a b : jsstring) : jsstring_eqb a b = false <-> a <> b.
Proof.
  rewrite <- jsstring_eqb_eq.
  destruct (jsstring_eqb a b); split; congruence.
Qed.

Section MapFacts.
Variable V : Type.
Implicit Types (m : JSMap.t V) (k : jsstring) (v : V).

Lemma get_set_same m k v : JSMap.get k (JSMap.set k v m) = Some v.
Proof.
  induction m as [|[k' v'] m IH]; simpl.
  - now rewrite jsstring_eqb_refl.
  - destruct (jsstring_eqb k' k) eqn:E; simpl.
    + now rewrite jsstring_eqb_refl.
    + now rewrite E.
Qed.

Lemma get_set_other m k k' v :
  k' <> k -> JSMap.get k' (JSMap.set k v m) = JSMap.get k' m.
Proof.
  intros Hne. induction m as [|[k0 v0] m IH]; simpl.
  - apply not_eq_sym, jsstring_eqb_neq in Hne. now rewrite Hne.
  - destruct (jsstring_eqb k0 k) eqn:E; simpl.
    + apply jsstring_eqb_eq in E; subst k0.
      apply not_eq_sym, jsstring_eqb_neq in Hne. now rewrite Hne.
    + destruct (jsstring_eqb k0 k'); auto.
Qed.

Lemma keys_set_in m k v k' :
  In k' (JSMap.keys (JSMap.set k v m)) <-> k' = k \/ In k' (JSMap.keys m).
Proof.
  induction m as [|[k0 v0] m IH]; simpl.
  - intuition.
  - destruct (jsstring_eqb k0 k) eqn:E; simpl.
    + apply jsstring_eqb_eq in E; subst k0. intuition.
    + rewrite IH. intuition.
Qed.

Lemma keys_set_NoDup m k v :
  NoDup (JSMap.keys m) -> NoDup (JSMap.keys (JSMap.set k v m)).
Proof.
  induction m as [|[k0 v0] m IH]; simpl; intros Hnd.
  - constructor; [intros [] | constructor].
  - inversion Hnd as [|? ? Hnotin Hnd']; subst.
    destruct (jsstring_eqb k0 k) eqn:E; simpl.
    + apply jsstring_eqb_eq in E; subst k0. now constructor.
    + constructor; [|now apply IH].
      intros Hin. apply keys_set_in in Hin. destruct Hin as [->|Hin].
      * rewrite jsstring_eqb_refl in E. discriminate.
      * contradiction.
Qed.

Lemma get_in_keys m k : JSMap.get k m <> None <-> In k (JSMap.keys m).
Proof.
  induction m as [|[k0 v0] m IH]; simpl.
  - tauto.
  - destruct (jsstring_eqb k0 k) eqn:E.
    + apply jsstring_eqb_eq in E. split; [auto | discriminate].
    + apply jsstring_eqb_neq in E. rewrite IH. intuition.
Qed.

End MapFacts.

(** ** The citation injector *)

Lemma join_nil_concat (l : list jsstring) : join [] l = concat l.
Proof.
  induction l as [|x [|y l] IH]; simpl in *; auto.
  - now rewrite app_nil_r.
  - now rewrite IH.
Qed.

Lemma clamp_mono (len : nat) (a b : Z) :
  (a <= b)%Z -> clamp len a <= clamp len b.
Proof. unfold clamp; intros; lia. Qed.

Lemma substring_substringFrom (s : jsstring) (a b : Z) :
  (a <= b)%Z -> substring s a b ++ substringFrom s b = substringFrom s a.
Proof.
  intros Hab. unfold substring, substringFrom.
  pose proof (clamp_mono (length s) a b Hab) as Hc.
  set (x := clamp (length s) a) in *. set (y := clamp (length s) b) in *.
  rewrite Nat.max_r, Nat.min_l by lia.
  replace (skipn y s) with (skipn (y - x) (skipn x s)).
  - apply firstn_skipn.
  - rewrite skipn_skipn. f_equal; lia.
Qed.

Lemma substringFrom_0 (s : jsstring) : substringFrom s 0 = s.
Proof. reflexivity. Qed.

Lemma textOf_app (p q : list part) : textOf (p ++ q) = textOf p ++ textOf q.
Proof.
  unfold textOf, withoutLinks. now rewrite filter_app, map_app, concat_app.
Qed.

Lemma walk_cons (content : jsstring) (c : Processed.t)
  (cs : list Processed.t) (st : list part * Z) :
  walk content (c :: cs) st = walk content cs (walkStep content st c).
Proof. reflexivity. Qed.

(** The invariant of the loop: the slices pushed so far and the content
    from the cursor on make up the content. *)
Lemma walk_text (content : jsstring) (cs : list Processed.t) :
  forall parts lastIndex,
    textOf (fst (walk content cs (parts, lastIndex)))
      ++ substringFrom content (snd (walk content cs (parts, lastIndex)))
    = textOf parts ++ substringFrom content lastIndex.
Proof.
  induction cs as [|c cs IH]; intros parts lastIndex; [reflexivity|].
  rewrite walk_cons. unfold walkStep.
  destruct (Z.ltb_spec (insertionPoint c) lastIndex).
  - apply IH.
  - rewrite IH, textOf_app, <- app_assoc. f_equal.
    unfold textOf; simpl. rewrite app_nil_r.
    now apply substring_substringFrom.
Qed.

Lemma resultParts_text (content : jsstring) (cs : list Processed.t) :
  textOf (resultParts content cs) = content.
Proof.
  unfold resultParts.
  pose proof (walk_text content cs [] 0) as H.
  destruct (walk content cs ([], 0%Z)) as [parts lastIndex]; simpl in H.
  rewrite textOf_app. unfold textOf at 2; simpl. now rewrite app_nil_r.
Qed.


Lemma mapi_fst {A B : Type} (f : A -> jsstring) (g : A -> nat -> B)
  (l : list A) :
  map fst (mapi (fun x i => (f x, g x i)) l) = map f l.
Proof.
  unfold mapi. generalize 0 as start.
  induction l as [|x l IH]; intros start; simpl; auto.
  now rewrite IH.
Qed.

Lemma keys_fold_set {V : Type} (entries : list (jsstring * V)) :
  forall (m : JSMap.t V) (k : jsstring),
    In k (JSMap.keys (fold_left (fun m kv => JSMap.set (fst kv) (snd kv) m)
                                entries m))
    <-> In k (JSMap.keys m) \/ In k (map fst entries).
Proof.
  induction entries as [|[k0 v0] entries IH]; intros m k; simpl.
  - tauto.
  - rewrite IH, keys_set_in. intuition auto.
Qed.

Lemma knownUri_in (sources : list Source.t) (u : jsstring) :
  knownUri sources u = true <-> In u (map Source.uri sources).
Proof.
  unfold knownUri. rewrite existsb_exists, in_map_iff.
  split; intros [x [H1 H2]]; exists x.
  - apply jsstring_eqb_eq in H2. auto.
  - split; [auto | now apply jsstring_eqb_eq].
Qed.

(** A [uri] has an entry in [uriToSourceData] exactly when a source of the
    list has it. *)
Lemma uriToSourceData_known (sources : list Source.t) (u : jsstring) :
  JSMap.get u (uriToSourceData sources) <> None <-> knownUri sources u = true.
Proof.
  rewrite get_in_keys, knownUri_in. unfold uriToSourceData, JSMap.ofEntries.
  rewrite keys_fold_set, mapi_fst. unfold JSMap.keys. simpl. tauto.
Qed.

Lemma attachSource_survives (sources : list Source.t) (c : Citation.t) :
  attachSource (uriToSourceData sources) c <> None
  <-> survives sources c = true.
Proof.
  unfold attachSource, survives, hasNumericStart.
  pose proof (uriToSourceData_known sources (Citation.uri c)) as Hk.
  destruct (Citation.startIndex c); simpl.
  - destruct (JSMap.get (Citation.uri c) (uriToSourceData sources)).
    + split; [intros _; apply Hk; discriminate | discriminate].
    + split; [congruence|]. intros H. apply Hk in H. congruence.
  - split; [congruence | discriminate].
Qed.

(** The citations that do not survive leave no trace in
    [processedCitations]. *)
Lemma processedCitations_survivors
  (citations : list Citation.t) (sources : list Source.t) :
  processedCitations (filter (survives sources) citations) sources
  = processedCitations citations sources.
Proof.
  unfold processedCitations. f_equal.
  induction citations as [|c cs IH]; simpl; auto.
  pose proof (attachSource_survives sources c) as Hs.
  destruct (survives sources c) eqn:Esurv; simpl.
  - destruct (hasNumericStart c); simpl; [|exact IH].
    destruct (attachSource (uriToSourceData sources) c); now rewrite IH.
  - destruct (hasNumericStart c) eqn:Enum; simpl; [|exact IH].
    destruct (attachSource (uriToSourceData sources) c) eqn:Ea; [|exact IH].
    assert (false = true) by (apply Hs; discriminate). discriminate.
Qed.

Lemma sortByStart_nil_iff (l : list Processed.t) : sortByStart l = [] <-> l = [].
Proof.
  destruct l as [|c l]; simpl; [tauto|].
  split; [|discriminate].
  destruct (sortByStart l) as [|d l']; simpl; [discriminate|].
  destruct (Processed.startIndex c <=? Processed.startIndex d)%Z; discriminate.
Qed.

(** C8. [processCitedContent] is a total function (it has no failing
    branch); with [null] or empty citations or sources it returns the
    content; a citation that has no numeric [startIndex] or whose [uri] is
    the [uri] of no source can be removed from the input without changing
    the output; and when no citation survives the output is the content. *)
Theorem processCitedContent_drops_unplaceable
  (content : jsstring) (citations : list Citation.t)
  (sources : list Source.t) :
  (forall ss, processCitedContent content None ss = content)
  /\ (forall cs, processCitedContent content cs None = content)
  /\ (forall ss, processCitedContent content (Some []) ss = content)
  /\ (forall cs, processCitedContent content cs (Some []) = content)
  /\ processCitedContent content (Some citations) (Some sources)
     = processCitedContent content
         (Some (filter (survives sources) citations)) (Some sources)
  /\ (filter (survives sources) citations = [] ->
      processCitedContent content (Some citations) (Some sources) = content).
Proof.
  assert (Hmain : processCitedContent content (Some citations) (Some sources)
     = processCitedContent content
         (Some (filter (survives sources) citations)) (Some sources)).
  { unfold processCitedContent.
    rewrite processedCitations_survivors.
    destruct (length sources =? 0) eqn:Es; [now rewrite !orb_true_r|].
    rewrite !orb_false_r.
    destruct (length citations =? 0) eqn:Ec.
    - apply Nat.eqb_eq, length_zero_iff_nil in Ec. now subst.
    - destruct (length (filter (survives sources) citations) =? 0) eqn:Ef; auto.
      apply Nat.eqb_eq, length_zero_iff_nil in Ef.
      rewrite <- (processedCitations_survivors citations sources), Ef.
      reflexivity. }
  split; [intros [ss|]; reflexivity|].
  split; [intros [cs|]; reflexivity|].
  split; [intros [ss|]; reflexivity|].
  split; [intros [cs|]; simpl; auto; now rewrite orb_true_r|].
  split; [exact Hmain|].
  intros Hnone. rewrite Hmain, Hnone. reflexivity.
Qed.

Lemma processCitedContent_drops_unplaceable_witness :
  processCitedContent (js "ABCDEFGHIJ")
    (Some [mkCitation None (Some 4%Z) "a"; mkCitation (Some 2%Z) None "zzz"])
    (Some sourcesAB)
  = js "ABCDEFGHIJ".
Proof.
  apply (processCitedContent_drops_unplaceable (js "ABCDEFGHIJ")
           [mkCitation None (Some 4%Z) "a"; mkCitation (Some 2%Z) None "zzz"]
           sourcesAB).
  reflexivity.
Defined.




(** C7, as stated, fails in its last part: the overlapping citations
    [3,8) and [5,10), sorted by [startIndex], both produce a link, since
    the second insertion point (10) is not before the cursor (8). *)
Lemma overlapping_citations_both_linked :
  linkCount (resultParts (js "ABCDEFGHIJ")
               (processedCitations overlappingCitations sourcesAB)) = 2
  /\ processCitedContent (js "ABCDEFGHIJ") (Some overlappingCitations)
       (Some sourcesAB)
    = js "ABCDEFGH[1](#citation-0)IJ[2](#citation-1)".
Proof. split; reflexivity. Qed.

(** C7, amended. A citation whose insertion point is strictly before the
    cursor is skipped (nothing pushed, cursor unchanged); one whose
    insertion point equals the cursor is accepted; so, for two citations
    in sorted order of which the first is accepted, the second produces a
    link exactly when its insertion point is not strictly before the
    first's: only a citation that ends inside the first is skipped. *)
Theorem walk_skips_passed_insertion_points (content : jsstring) :
  (forall parts lastIndex citation,
      (insertionPoint citation < lastIndex)%Z ->
      walkStep content (parts, lastIndex) citation = (parts, lastIndex))
  /\ (forall parts lastIndex citation,
        insertionPoint citation = lastIndex ->
        walkStep content (parts, lastIndex) citation
        = (parts ++ [Text []; Link (Processed.sourceIndex citation)],
           lastIndex))
  /\ (forall c1 c2 : Processed.t,
        (Processed.startIndex c1 <= Processed.startIndex c2)%Z ->
        (0 <= insertionPoint c1)%Z ->
        resultParts content (sortByStart [c1; c2])
        = if (insertionPoint c2 <? insertionPoint c1)%Z
          then [Text (substring content 0 (insertionPoint c1));
                Link (Processed.sourceIndex c1);
                Text (substringFrom content (insertionPoint c1))]
          else [Text (substring content 0 (insertionPoint c1));
                Link (Processed.sourceIndex c1);
                Text (substring content (insertionPoint c1)
                        (insertionPoint c2));
                Link (Processed.sourceIndex c2);
                Text (substringFrom content (insertionPoint c2))]).
Proof.
  split; [|split].
  - intros parts lastIndex citation Hlt. unfold walkStep.
    apply Z.ltb_lt in Hlt. now rewrite Hlt.
  - intros parts lastIndex citation Heq. unfold walkStep.
    rewrite Heq, Z.ltb_irrefl. do 3 f_equal.
    unfold substring. now rewrite Nat.max_id, Nat.min_id, Nat.sub_diag.
  - intros c1 c2 Hsorted Hpos. simpl.
    apply Z.leb_le in Hsorted. rewrite Hsorted.
    unfold resultParts, walk; simpl.
    assert (Hacc : (insertionPoint c1 <? 0)%Z = false) by (apply Z.ltb_ge; lia).
    rewrite Hacc. unfold walkStep.
    destruct (insertionPoint c2 <? insertionPoint c1)%Z; reflexivity.
Qed.

Lemma walk_skips_passed_insertion_points_witness :
  walkStep (js "ABCDEFGHIJ") ([], 8%Z)
    {| Processed.startIndex := 5; Processed.endIndex := Some 6%Z;
       Processed.uri := js "b"; Processed.license := None;
       Processed.sourceIndex := 1; Processed.sourceTitle := js "B" |}
  = ([], 8%Z)
  /\ walkStep (js "ABCDEFGHIJ") ([], 8%Z)
       {| Processed.startIndex := 5; Processed.endIndex := Some 8%Z;
          Processed.uri := js "b"; Processed.license := None;
          Processed.sourceIndex := 1; Processed.sourceTitle := js "B" |}
     = ([Text []; Link 1], 8%Z)
  /\ resultParts (js "ABCDEFGHIJ")
       (sortByStart
          [{| Processed.startIndex := 0; Processed.endIndex := Some 8%Z;
              Processed.uri := js "a"; Processed.license := None;
              Processed.sourceIndex := 0; Processed.sourceTitle := js "A" |};
           {| Processed.startIndex := 2; Processed.endIndex := Some 3%Z;
              Processed.uri := js "b"; Processed.license := None;
              Processed.sourceIndex := 1; Processed.sourceTitle := js "B" |}])
     = [Text (js "ABCDEFGH"); Link 0; Text (js "IJ")].
Proof.
  split; [|split].
  - apply (proj1 (walk_skips_passed_insertion_points (js "ABCDEFGHIJ"))).
    reflexivity.
  - apply (proj1 (proj2 (walk_skips_passed_insertion_points
                           (js "ABCDEFGHIJ")))).
    reflexivity.
  - apply (proj2 (proj2 (walk_skips_passed_insertion_points
                           (js "ABCDEFGHIJ")))).
    + discriminate.
    + discriminate.
Defined.

(** ** The table extractor *)

(** C5, as stated, fails: on the example the remaining text is not
    [Intro text.], one blank line, [Outro text.]. *)
Lemma gridExample_remainingText_differs :
  remainingText (extractAndParseMarkdownTable gridExample)
  <> textOfLines [js "Intro text."; []; js "Outro text."].
Proof. vm_compute. discriminate. Qed.

(** C5, amended. On the example the table has the headers [Name], [Score]
    and the rows [Alice], [90] and [Bob], [85], and the remaining text keeps
    every line that is not consumed, in order, the two blank lines
    included: [Intro text.], two blank lines, [Outro text.]. *)
Theorem gridExample_extracted :
  extractAndParseMarkdownTable gridExample
  = {| remainingText := textOfLines [js "Intro text."; []; []; js "Outro text."];
       table := Some (gridTable [js "Name"; js "Score"]
                                [[js "Alice"; js "90"]; [js "Bob"; js "85"]]) |}.
Proof. vm_compute. reflexivity. Qed.

Lemma internalParse_null_keeps_text (markdown : jsstring) :
  table (_internalParseMarkdownForTable markdown) = None ->
  remainingText (_internalParseMarkdownForTable markdown) = markdown.
Proof.
  unfold _internalParseMarkdownForTable.
  destruct (findTable 0 (split Char.lf markdown)) as [[[start hs] rowsData]|];
    [|reflexivity].
  destruct (length rowsData =? 0); [reflexivity | discriminate].
Qed.

Lemma includes_false (c : N) (s : jsstring) :
  includes c s = false <-> ~ In c s.
Proof.
  unfold includes. split.
  - intros H Hin. assert (existsb (N.eqb c) s = true); [|congruence].
    apply existsb_exists. exists c. split; [auto | apply N.eqb_refl].
  - intros H. destruct (existsb (N.eqb c) s) eqn:E; auto.
    apply existsb_exists in E. destruct E as [x [Hin Heq]].
    apply N.eqb_eq in Heq. subst. contradiction.
Qed.

Lemma includes_true (c : N) (s : jsstring) :
  includes c s = true <-> In c s.
Proof.
  pose proof (includes_false c s). destruct (includes c s); split; intros.
  - destruct (in_dec N.eq_dec c s); auto.
    assert (true = false) by (now apply H). discriminate.
  - reflexivity.
  - discriminate.
  - exfalso. now apply (proj1 H).
Qed.

Lemma dropWhile_incl (p : N -> bool) (s : jsstring) (c : N) :
  In c (dropWhile p s) -> In c s.
Proof.
  induction s as [|x s IH]; simpl; auto.
  destruct (p x); simpl; auto.
Qed.

Lemma trim_incl (s : jsstring) (c : N) : In c (trim s) -> In c s.
Proof.
  unfold trim, trimEnd, trimStart. intros H.
  apply in_rev, dropWhile_incl, in_rev in H.
  now apply dropWhile_incl in H.
Qed.

Lemma split_incl (sep : N) (s : jsstring) :
  forall seg c, In seg (split sep s) -> In c seg -> In c s.
Proof.
  induction s as [|x s IH]; simpl; intros seg c Hseg Hc.
  - destruct Hseg as [<-|[]]. destruct Hc.
  - destruct (N.eqb x sep).
    + destruct Hseg as [<-|Hseg]; [destruct Hc|]. right. eauto.
    + destruct (split sep s) as [|seg0 segs] eqn:E.
      * destruct Hseg as [<-|[]]. destruct Hc as [->|[]]. now left.
      * destruct Hseg as [<-|Hseg].
        -- destruct Hc as [->|Hc]; [now left|]. right.
           apply (IH seg0); simpl; auto.
        -- right. apply (IH seg); simpl; auto.
Qed.

Lemma isSeparatorLine_needs_pipe (line : jsstring) :
  ~ In Char.pipe line -> isSeparatorLine line = false.
Proof.
  intros Hno. unfold isSeparatorLine.
  assert (Hinc : includes Char.pipe (trim line) = false).
  { apply includes_false. intros H. apply Hno. now apply trim_incl. }
  rewrite Hinc. simpl. now rewrite orb_true_r.
Qed.

Lemma findTable_no_separator (lines : list jsstring) :
  Forall (fun line => isSeparatorLine line = false) lines ->
  forall i, findTable i lines = None.
Proof.
  induction 1 as [|header rest Hh Hrest IH]; intros i; [reflexivity|].
  simpl. destruct rest as [|sep following]; [reflexivity|].
  inversion Hrest as [|? ? Hsep _]; subst. rewrite Hsep. apply IH.
Qed.

(** A text without a pipe character has no grid table. *)
Lemma internalParse_no_pipe (markdown : jsstring) :
  ~ In Char.pipe markdown ->
  _internalParseMarkdownForTable markdown
  = {| remainingText := markdown; table := None |}.
Proof.
  intros Hno. unfold _internalParseMarkdownForTable.
  rewrite findTable_no_separator; [reflexivity|].
  apply Forall_forall. intros line Hline.
  apply isSeparatorLine_needs_pipe. intros Hin.
  apply Hno. eapply split_incl; eauto.
Qed.

Lemma stripPrefix_fence_no_backtick (s : jsstring) :
  ~ In Char.backtick s -> stripPrefix fence s = None.
Proof.
  destruct s as [|c s]; intros Hno; [reflexivity|].
  unfold fence. cbn [stripPrefix].
  destruct (N.eqb_spec Char.backtick c) as [Heq|Hne]; [|reflexivity].
  exfalso. apply Hno. now left.
Qed.

(** A text without a backtick has no fenced block. *)
Lemma matchJsonBlock_no_backtick (text : jsstring) :
  ~ In Char.backtick text -> matchJsonBlock text = None.
Proof.
  induction text as [|c text IH]; intros Hno.
  - reflexivity.
  - simpl. unfold blockAt.
    rewrite (stripPrefix_fence_no_backtick (c :: text) Hno).
    apply IH. intros H. apply Hno. now right.
Qed.

(** C9. [extractAndParseMarkdownTable] is a total function (the
    [SyntaxError] of [JSON.parse] is caught); whenever it returns no table,
    the remaining text is the input itself; a text with no pipe character
    and no fenced block yields no table; and a text without a backtick,
    such as plain prose, has no fenced block. *)
Theorem extract_null_table_keeps_input (responseText : jsstring) :
  (table (extractAndParseMarkdownTable responseText) = None ->
   remainingText (extractAndParseMarkdownTable responseText) = responseText)
  /\ (~ In Char.pipe responseText ->
      matchJsonBlock (trim responseText) = None ->
      extractAndParseMarkdownTable responseText
      = {| remainingText := responseText; table := None |})
  /\ (~ In Char.backtick responseText ->
      matchJsonBlock (trim responseText) = None).
Proof.
  split; [|split].
  - unfold extractAndParseMarkdownTable.
    destruct (length responseText =? 0) eqn:Elen.
    { apply Nat.eqb_eq, length_zero_iff_nil in Elen. now subst. }
    destruct (matchJsonBlock (trim responseText)) as [blockMatch|];
      [|apply internalParse_null_keeps_text].
    destruct (negb (length (matched blockMatch) =? 0)
              && negb (length (group1 blockMatch) =? 0));
      [|apply internalParse_null_keeps_text].
    destruct (JSON_parse (group1 blockMatch)) as [parsedJson|].
    + destruct (validatedTable parsedJson);
        [discriminate | apply internalParse_null_keeps_text].
    + destruct (table (_internalParseMarkdownForTable _)) eqn:Eout.
      * rewrite Eout. discriminate.
      * apply internalParse_null_keeps_text.
  - intros Hpipe Hblock. unfold extractAndParseMarkdownTable.
    destruct (length responseText =? 0) eqn:Elen.
    { apply Nat.eqb_eq, length_zero_iff_nil in Elen. now subst. }
    rewrite Hblock. now apply internalParse_no_pipe.
  - intros Htick. apply matchJsonBlock_no_backtick.
    intros H. apply Htick. now apply trim_incl.
Qed.

Lemma extract_null_table_keeps_input_witness :
  extractAndParseMarkdownTable (js "Plain prose, no table here.")
  = {| remainingText := js "Plain prose, no table here."; table := None |}
  /\ remainingText (extractAndParseMarkdownTable (js "a | b"))
    = js "a | b".
Proof.
  split.
  - apply (proj1 (proj2 (extract_null_table_keeps_input
                           (js "Plain prose, no table here.")))).
    + apply includes_false. reflexivity.
    + apply (proj2 (proj2 (extract_null_table_keeps_input
                             (js "Plain prose, no table here.")))).
      apply includes_false. reflexivity.
  - apply (proj1 (extract_null_table_keeps_input (js "a | b"))).
    reflexivity.
Defined.

Lemma collectRows_width (width : nat) (lines : list jsstring) :
  Forall (fun row => length row = width) (collectRows width lines).
Proof.
  induction lines as [|rowLine rest IH]; simpl; [constructor|].
  destruct (includes Char.pipe rowLine); simpl; [|constructor].
  destruct (Nat.eqb_spec (length (parseRow rowLine)) width); simpl;
    constructor; auto.
Qed.

Lemma findTable_rows (lines : list jsstring) :
  forall i start hs rowsData,
    findTable i lines = Some (start, hs, rowsData) ->
    Forall (fun row => length row = length hs) rowsData.
Proof.
  induction lines as [|header rest IH]; intros i start hs rowsData;
    [discriminate|].
  destruct rest as [|sep following]; [discriminate|].
  cbn [findTable].
  destruct (isSeparatorLine sep); [|apply IH].
  destruct ((0 <? length (parseRow header))
            && (length (parseRow header)
                =? length (split Char.pipe (stripWsPipes sep)))); [|apply IH].
  intros H; inversion H; subst. apply collectRows_width.
Qed.

Lemma gridTable_rowsMatchHeaders (hs : list jsstring)
  (rowsData : list (list jsstring)) :
  Forall (fun row => length row = length hs) rowsData ->
  rowsMatchHeaders (gridTable hs rowsData) = true.
Proof.
  unfold rowsMatchHeaders, gridTable; simpl.
  induction 1 as [|row rest Hrow _ IH]; simpl; [reflexivity|].
  rewrite IH, !length_map, Hrow, Nat.eqb_refl. reflexivity.
Qed.

(** A table of the grid scanner has at least one row, and every row has
    the length of the headers. *)
Lemma internalParse_rows (markdown : jsstring) (t : ComparisonTableData) :
  table (_internalParseMarkdownForTable markdown) = Some t ->
  rowsMatchHeaders t = true /\ rows t <> [].
Proof.
  unfold _internalParseMarkdownForTable.
  destruct (findTable 0 (split Char.lf markdown))
    as [[[start hs] rowsData]|] eqn:Efind; [|discriminate].
  destruct (length rowsData =? 0) eqn:Elen; [discriminate|].
  simpl. intros H; inversion H; subst. split.
  - apply gridTable_rowsMatchHeaders. eapply findTable_rows; eauto.
  - destruct rowsData; [discriminate | simpl; discriminate].
Qed.

(** C1, as stated, fails: the table of a fenced JSON block is returned as
    it was parsed, here with two headers and a row of one cell. *)
Lemma raggedJsonExample_row_too_short :
  table (extractAndParseMarkdownTable raggedJsonExample)
  = Some {| headers := [JStr (js "A"); JStr (js "B")];
            rows := [JArr [JStr (js "1")]] |}
  /\ option_map rowsMatchHeaders
       (table (extractAndParseMarkdownTable raggedJsonExample))
     = Some false.
Proof. split; vm_compute; reflexivity. Qed.

(** C1, amended. A table found by the plain grid scanner has at least one
    row and every row has as many cells as there are headers. A table
    returned by [extractAndParseMarkdownTable] is either such a table or
    the [table] of the parsed payload of the fenced block, of which only
    [headers] and [rows] being arrays was checked. *)
Theorem grid_table_rows_match_headers
  (responseText : jsstring) (t : ComparisonTableData) :
  (forall markdown,
      table (_internalParseMarkdownForTable markdown) = Some t ->
      rowsMatchHeaders t = true /\ rows t <> [])
  /\ (table (extractAndParseMarkdownTable responseText) = Some t ->
      (rowsMatchHeaders t = true /\ rows t <> [])
      \/ exists blockMatch parsedJson tableValue,
          matchJsonBlock (trim responseText) = Some blockMatch
          /\ JSON_parse (group1 blockMatch) = Some parsedJson
          /\ prop (js "table") parsedJson = Some tableValue
          /\ prop (js "headers") tableValue = Some (JArr (headers t))
          /\ prop (js "rows") tableValue = Some (JArr (rows t))).
Proof.
  split; [intros markdown; apply internalParse_rows|].
  unfold extractAndParseMarkdownTable.
  destruct (length responseText =? 0); [discriminate|].
  destruct (matchJsonBlock (trim responseText)) as [blockMatch|];
    [|left; eapply internalParse_rows; eauto].
  destruct (negb (length (matched blockMatch) =? 0)
            && negb (length (group1 blockMatch) =? 0));
    [|left; eapply internalParse_rows; eauto].
  destruct (JSON_parse (group1 blockMatch)) as [parsedJson|] eqn:Eparse.
  - destruct (validatedTable parsedJson) as [t'|] eqn:Evalid;
      [|left; eapply internalParse_rows; eauto].
    simpl. intros H; inversion H; subst t'. right.
    exists blockMatch, parsedJson.
    unfold validatedTable in Evalid.
    destruct (truthy (Some parsedJson)
              && truthy (prop (js "table") parsedJson)); [|discriminate].
    destruct (prop (js "table") parsedJson) as [tableValue|]; [|discriminate].
    exists tableValue.
    destruct tableValue; try discriminate;
      destruct (prop (js "headers") _) as [[| | | |hs|]|]; try discriminate;
      destruct (prop (js "rows") _) as [[| | | |rs|]|]; try discriminate;
      inversion Evalid; subst; simpl; auto.
  - destruct (table (_internalParseMarkdownForTable _)) eqn:Eout.
    + rewrite Eout. intros H; inversion H; subst.
      left. eapply internalParse_rows; eauto.
    + intros H. left. eapply internalParse_rows; eauto.
Qed.

Lemma grid_table_rows_match_headers_witness :
  (rowsMatchHeaders
     (gridTable [js "Name"; js "Score"]
                [[js "Alice"; js "90"]; [js "Bob"; js "85"]]) = true
   /\ rows (gridTable [js "Name"; js "Score"]
                       [[js "Alice"; js "90"]; [js "Bob"; js "85"]]) <> [])
  /\ ((rowsMatchHeaders
         {| headers := [JStr (js "A"); JStr (js "B")];
            rows := [JArr [JStr (js "1")]] |} = true
       /\ rows {| headers := [JStr (js "A"); JStr (js "B")];
                  rows := [JArr [JStr (js "1")]] |} <> [])
      \/ exists blockMatch parsedJson tableValue,
          matchJsonBlock (trim raggedJsonExample) = Some blockMatch
          /\ JSON_parse (group1 blockMatch) = Some parsedJson
          /\ prop (js "table") parsedJson = Some tableValue
          /\ prop (js "headers") tableValue
             = Some (JArr [JStr (js "A"); JStr (js "B")])
          /\ prop (js "rows") tableValue = Some (JArr [JArr [JStr (js "1")]])).
Proof.
  split.
  - apply (proj1 (grid_table_rows_match_headers gridExample
                    (gridTable [js "Name"; js "Score"]
                               [[js "Alice"; js "90"]; [js "Bob"; js "85"]]))
                 gridExample).
    vm_compute. reflexivity.
  - apply (proj2 (grid_table_rows_match_headers raggedJsonExample
                    {| headers := [JStr (js "A"); JStr (js "B")];
                       rows := [JArr [JStr (js "1")]] |})).
    vm_compute. reflexivity.
Defined.

(** A [table] value whose [headers] or [rows] is missing or no array is not
    validated. *)
Lemma validatedTable_invalid (parsedJson tableValue : json) :
  prop (js "table") parsedJson = Some tableValue ->
  (forall hs, prop (js "headers") tableValue <> Some (JArr hs))
  \/ (forall rs, prop (js "rows") tableValue <> Some (JArr rs)) ->
  validatedTable parsedJson = None.
Proof.
  intros Htable Hbad. unfold validatedTable. rewrite Htable.
  destruct (truthy (Some parsedJson) && truthy (Some tableValue));
    [|reflexivity].
  destruct tableValue; try reflexivity;
    destruct (prop (js "headers") _) as [[| | | |hs|]|] eqn:Eh;
    try reflexivity;
    destruct (prop (js "rows") _) as [[| | | |rs|]|] eqn:Er;
    try reflexivity;
    destruct Hbad as [Hbad|Hbad]; exfalso; eapply Hbad; eauto.
Qed.

(** C2, as stated, fails: on the example the fenced block parses as JSON
    and its [table] is invalid; the text outside the block has no table,
    yet a table is returned, whose header line is the fenced block
    itself: the scan ran on the whole text. *)
Lemma invalidTableExample_scans_whole_text :
  matchJsonBlock (trim invalidTableExample) = Some invalidTableBlock
  /\ JSON_parse (group1 invalidTableBlock)
     = Some (JObj [(js "table", JObj [(js "headers", JStr (js "A"))])])
  /\ _internalParseMarkdownForTable
       (textOutsideBlock invalidTableExample invalidTableBlock)
     = {| remainingText := textOfLines [js "|---|"; js "| x |"];
          table := None |}
  /\ extractAndParseMarkdownTable invalidTableExample
     = {| remainingText := [];
          table := Some (gridTable [matched invalidTableBlock] [[js "x"]]) |}.
Proof. repeat split; vm_compute; reflexivity. Qed.

(** C2, amended. When the fenced block that the regular expression
    matches in the trimmed text (its first match: no other block is looked
    at) has a payload that parses as JSON and a [table] value whose
    [headers] or [rows] is missing or no array, the block yields no table
    and the result is the one of the plain grid scan on the whole of the
    original text, fenced block included. *)
Theorem invalid_json_table_scans_whole_text
  (responseText : jsstring) (blockMatch : BlockMatch)
  (parsedJson tableValue : json) :
  matchJsonBlock (trim responseText) = Some blockMatch ->
  JSON_parse (group1 blockMatch) = Some parsedJson ->
  prop (js "table") parsedJson = Some tableValue ->
  (forall hs, prop (js "headers") tableValue <> Some (JArr hs))
  \/ (forall rs, prop (js "rows") tableValue <> Some (JArr rs)) ->
  extractAndParseMarkdownTable responseText
  = _internalParseMarkdownForTable responseText.
Proof.
  intros Hmatch Hparse Htable Hbad.
  unfold extractAndParseMarkdownTable.
  destruct (length responseText =? 0) eqn:Elen.
  { apply Nat.eqb_eq, length_zero_iff_nil in Elen. subst.
    vm_compute in Hmatch. discriminate. }
  rewrite Hmatch, Hparse, (validatedTable_invalid _ _ Htable Hbad).
  destruct (negb (length (matched blockMatch) =? 0)
            && negb (length (group1 blockMatch) =? 0)); reflexivity.
Qed.

Lemma invalid_json_table_scans_whole_text_witness :
  extractAndParseMarkdownTable invalidTableExample
  = _internalParseMarkdownForTable invalidTableExample.
Proof.
  apply (invalid_json_table_scans_whole_text invalidTableExample
           invalidTableBlock
           (JObj [(js "table", JObj [(js "headers", JStr (js "A"))])])
           (JObj [(js "headers", JStr (js "A"))])).
  - vm_compute. reflexivity.
  - vm_compute. reflexivity.
  - vm_compute. reflexivity.
  - right. intros rs. vm_compute. discriminate.
Defined.

(** ** Merging the sources of the stream *)

Lemma mergeChunks_arrivals (chunks : list (option (list Source.t))) :
  forall m, fold_left mergeSources chunks m = fold_left setSource (arrivals chunks) m.
Proof.
  induction chunks as [|sources chunks IH]; intros m; simpl; [reflexivity|].
  rewrite fold_left_app, IH. destruct sources; reflexivity.
Qed.

Lemma merge_keys_NoDup (l : list Source.t) :
  forall m, NoDup (JSMap.keys m) -> NoDup (JSMap.keys (fold_left setSource l m)).
Proof.
  induction l as [|s l IH]; intros m Hm; simpl; auto.
  apply IH, keys_set_NoDup, Hm.
Qed.

Lemma set_keyedByUri (m : JSMap.t Source.t) (s : Source.t) :
  keyedByUri m -> keyedByUri (setSource m s).
Proof.
  unfold keyedByUri, setSource. induction 1 as [|[k v] m Hkv Hm IH]; simpl.
  - constructor; [reflexivity | constructor].
  - destruct (jsstring_eqb k (Source.uri s)); constructor; auto.
Qed.

Lemma merge_keyedByUri (l : list Source.t) :
  forall m, keyedByUri m -> keyedByUri (fold_left setSource l m).
Proof.
  induction l as [|s l IH]; intros m Hm; simpl; auto.
  apply IH, set_keyedByUri, Hm.
Qed.

Lemma keyedByUri_values (m : JSMap.t Source.t) :
  keyedByUri m -> map Source.uri (JSMap.values m) = JSMap.keys m.
Proof.
  unfold JSMap.values, JSMap.keys.
  induction 1 as [|[k v] m Hkv Hm IH]; simpl in *; [reflexivity|].
  now rewrite IH, Hkv.
Qed.

Lemma merge_get_other (l : list Source.t) (k : jsstring) :
  (forall s, In s l -> Source.uri s <> k) ->
  forall m, JSMap.get k (fold_left setSource l m) = JSMap.get k m.
Proof.
  induction l as [|s l IH]; intros Hl m; simpl; [reflexivity|].
  rewrite IH by (intros; apply Hl; now right).
  unfold setSource. apply get_set_other.
  intros Heq. apply (Hl s (or_introl eq_refl)). now symmetry.
Qed.

Lemma get_in_values (m : JSMap.t Source.t) (k : jsstring) (s : Source.t) :
  JSMap.get k m = Some s -> In s (JSMap.values m).
Proof.
  unfold JSMap.values. induction m as [|[k0 v0] m IH]; simpl; [discriminate|].
  destruct (jsstring_eqb k0 k).
  - intros H; inversion H; now left.
  - intros H; right; auto.
Qed.

(** C6, as stated, fails: when a [uri] arrives with two titles, the
    collection holds it once, with the title seen last. *)
Lemma retitled_source_keeps_last_title :
  finalSources retitledChunks = [mkSource "Second title" "u"]
  /\ finalSources retitledChunks <> [mkSource "First title" "u"].
Proof.
  split; [reflexivity|].
  intros H. vm_compute in H. discriminate.
Qed.

(** C6, amended. The merged collection holds each [uri] once, and for
    every [uri] the entry it holds is the one that arrived last (its
    title is the last-seen one). *)
Theorem merged_sources_keep_last_seen
  (chunks : list (option (list Source.t))) :
  NoDup (map Source.uri (finalSources chunks))
  /\ (forall (before after : list Source.t) (s : Source.t),
        arrivals chunks = before ++ s :: after ->
        (forall s', In s' after -> Source.uri s' <> Source.uri s) ->
        JSMap.get (Source.uri s) (mergeChunks chunks) = Some s
        /\ In s (finalSources chunks)).
Proof.
  unfold finalSources, mergeChunks. rewrite mergeChunks_arrivals.
  split.
  - rewrite keyedByUri_values.
    + apply merge_keys_NoDup. constructor.
    + apply merge_keyedByUri. constructor.
  - intros before after s Harr Hafter.
    assert (Hget : JSMap.get (Source.uri s)
                     (fold_left setSource (arrivals chunks) []) = Some s).
    { rewrite Harr, fold_left_app. simpl.
      rewrite merge_get_other by (intros s' Hin; now apply Hafter).
      apply get_set_same. }
    split; [exact Hget|]. eapply get_in_values; eauto.
Qed.

Lemma merged_sources_keep_last_seen_witness :
  JSMap.get (js "u") (mergeChunks retitledChunks)
  = Some (mkSource "Second title" "u")
  /\ In (mkSource "Second title" "u") (finalSources retitledChunks).
Proof.
  apply (proj2 (merged_sources_keep_last_seen retitledChunks)
           [mkSource "First title" "u"] [] (mkSource "Second title" "u")).
  - reflexivity.
  - intros s' [].
Defined.

(** ** Separator lines *)

Section DropWhile.
Variable p : N -> bool.

Lemma dropWhile_app_all (l x : jsstring) :
  Forall (fun c => p c = true) l -> dropWhile p (l ++ x) = dropWhile p x.
Proof.
  induction 1 as [|c l Hc _ IH]; simpl; [reflexivity|]. now rewrite Hc.
Qed.

Lemma dropWhile_split (s : jsstring) :
  exists l, Forall (fun c => p c = true) l /\ s = l ++ dropWhile p s.
Proof.
  induction s as [|c s [l [Hl Hs]]]; simpl.
  - exists []. split; [constructor | reflexivity].
  - destruct (p c) eqn:E.
    + exists (c :: l). split; [constructor; auto | simpl; congruence].
    + exists []. split; [constructor | reflexivity].
Qed.

Lemma dropWhile_nil (s : jsstring) :
  dropWhile p s = [] -> Forall (fun c => p c = true) s.
Proof.
  induction s as [|c s IH]; simpl; [constructor|].
  destruct (p c) eqn:E; [|discriminate]. constructor; auto.
Qed.

Lemma dropWhile_all (s : jsstring) :
  Forall (fun c => p c = true) s -> dropWhile p s = [].
Proof.
  intros H. rewrite <- (app_nil_r s). now rewrite dropWhile_app_all.
Qed.

End DropWhile.

Lemma all_dashes (l : jsstring) :
  Forall (fun c => N.eqb Char.dash c = true) l ->
  l = repeat Char.dash (length l).
Proof.
  induction 1 as [|c l Hc _ IH]; simpl; [reflexivity|].
  apply N.eqb_eq in Hc. now rewrite <- IH, Hc.
Qed.

Lemma optColon_split (s : jsstring) :
  exists present, s = optional Char.colon present ++ optColon s.
Proof.
  destruct s as [|c s]; simpl.
  - exists false. reflexivity.
  - destruct (N.eqb_spec c Char.colon) as [->|Hne].
    + exists true. reflexivity.
    + exists false. reflexivity.
Qed.

(** White space is neither a colon nor a dash. *)
Lemma ws_not_colon_dash (c : N) :
  is_ws c = true -> N.eqb c Char.colon = false /\ N.eqb Char.dash c = false.
Proof.
  intros H. split.
  - destruct (N.eqb_spec c Char.colon) as [->|]; [discriminate | reflexivity].
  - destruct (N.eqb_spec Char.dash c) as [<-|]; [discriminate | reflexivity].
Qed.

Lemma optColon_ws (s : jsstring) : allWs s -> optColon s = s.
Proof.
  destruct 1 as [|c s Hc _]; [reflexivity|]. unfold optColon.
  now rewrite (proj1 (ws_not_colon_dash c Hc)).
Qed.

Lemma dropDashes_ws (s : jsstring) :
  allWs s -> dropWhile (N.eqb Char.dash) s = s.
Proof.
  destruct 1 as [|c s Hc _]; [reflexivity|]. cbn [dropWhile].
  now rewrite (proj2 (ws_not_colon_dash c Hc)).
Qed.

Lemma dropDashes_repeat (n : nat) (x : jsstring) :
  dropWhile (N.eqb Char.dash) (repeat Char.dash n ++ x)
  = dropWhile (N.eqb Char.dash) x.
Proof.
  apply dropWhile_app_all. apply Forall_forall. intros c Hin.
  apply repeat_spec in Hin. subst. reflexivity.
Qed.

(** What follows the dashes: an optional colon and white space. *)
Lemma segment_tail (colon2 : bool) (after : jsstring) :
  allWs after ->
  dropWhile is_ws
    (optColon (dropWhile (N.eqb Char.dash)
                         (optional Char.colon colon2 ++ after))) = [].
Proof.
  intros Hafter. destruct colon2; simpl.
  - now apply dropWhile_all.
  - rewrite dropDashes_ws, optColon_ws by assumption. now apply dropWhile_all.
Qed.

(** The test of the regular expression is the specification's shape. *)
Lemma segmentMatches_shape (segment : jsstring) :
  segmentMatches segment = true <-> SegmentShape segment.
Proof.
  unfold segmentMatches. split.
  - intros H.
    destruct (dropWhile_split is_ws segment) as [before [Hbefore Hseg]].
    destruct (optColon_split (dropWhile is_ws segment)) as [colon1 Hs1].
    destruct (optColon (dropWhile is_ws segment)) as [|c t]; [discriminate|].
    destruct (N.eqb_spec c Char.dash) as [->|]; [|discriminate].
    change (dropWhile (N.eqb Char.dash) (Char.dash :: t))
      with (dropWhile (N.eqb Char.dash) t) in H.
    destruct (dropWhile_split (N.eqb Char.dash) t) as [d [Hd Ht]].
    destruct (optColon_split (dropWhile (N.eqb Char.dash) t)) as [colon2 Hs3].
    remember (optColon (dropWhile (N.eqb Char.dash) t)) as after eqn:Eafter.
    exists before, after, colon1, colon2, (length d).
    split; [exact Hbefore|]. split.
    + apply dropWhile_nil. destruct (dropWhile is_ws after); [reflexivity|].
      discriminate.
    + rewrite Hseg at 1. f_equal. rewrite Hs1. f_equal.
      simpl. f_equal. rewrite Ht at 1. rewrite <- (all_dashes d Hd).
      f_equal. exact Hs3.
  - intros (before & after & colon1 & colon2 & n & Hbefore & Hafter & ->).
    rewrite dropWhile_app_all by exact Hbefore.
    assert (Hs2 : optColon (dropWhile is_ws
                    (optional Char.colon colon1 ++ repeat Char.dash (S n)
                       ++ optional Char.colon colon2 ++ after))
                  = Char.dash :: repeat Char.dash n
                      ++ optional Char.colon colon2 ++ after).
    { destruct colon1; reflexivity. }
    rewrite Hs2.
    change (dropWhile (N.eqb Char.dash)
              (Char.dash :: repeat Char.dash n
                 ++ optional Char.colon colon2 ++ after))
      with (dropWhile (N.eqb Char.dash)
              (repeat Char.dash n ++ optional Char.colon colon2 ++ after)).
    rewrite N.eqb_refl, dropDashes_repeat, segment_tail by exact Hafter.
    reflexivity.
Qed.

Lemma stripLeadingPipe_incl (s : jsstring) (c : N) :
  In c (stripLeadingPipe s) -> In c s.
Proof.
  destruct s as [|x s']; simpl; [auto|].
  destruct (N.eqb x Char.pipe); simpl; auto.
Qed.

Lemma stripTrailingPipe_incl (s : jsstring) (c : N) :
  In c (stripTrailingPipe s) -> In c s.
Proof.
  unfold stripTrailingPipe. destruct (rev s) as [|x r] eqn:E; [auto|].
  destruct (N.eqb x Char.pipe); [|auto].
  intros H. apply in_rev. rewrite E. right. now apply in_rev.
Qed.

Lemma stripPipes_incl (s : jsstring) (c : N) : In c (stripPipes s) -> In c s.
Proof.
  intros H. now apply stripLeadingPipe_incl, stripTrailingPipe_incl.
Qed.

Lemma SegmentShape_has_dash (segment : jsstring) :
  SegmentShape segment -> In Char.dash segment.
Proof.
  intros (before & after & colon1 & colon2 & n & _ & _ & ->).
  apply in_or_app. right. apply in_or_app. right. now left.
Qed.

Lemma forallb_segmentMatches (segments : list jsstring) :
  forallb segmentMatches segments = true <-> Forall SegmentShape segments.
Proof.
  rewrite forallb_forall, Forall_forall.
  split; intros H x Hin; apply segmentMatches_shape; auto.
Qed.

(** C3, as stated, fails: the line [---], without a pipe, has the
    specification's shape (one segment of three dashes) and is no
    separator line for [isSeparatorLine]. *)
Lemma dashes_without_pipe_rejected :
  specSeparatorLine (js "---") /\ isSeparatorLine (js "---") = false.
Proof.
  split; [|reflexivity].
  split; [simpl; lia|].
  constructor; [|constructor].
  exists [], [], false, false, 2.
  repeat split; constructor.
Qed.

(** C3, amended. A line is a separator line for the grid scanner if and
    only if, trimmed, it contains a pipe character and, after stripping one
    optional leading and one optional trailing pipe, splitting on the pipe
    yields at least one segment and every segment is, between white space,
    an optional colon, one or more dashes and an optional colon. A line
    without a pipe, such as [---], is no separator line. *)
Theorem isSeparatorLine_iff (line : jsstring) :
  isSeparatorLine line = true
  <-> includes Char.pipe (trim line) = true /\ specSeparatorLine line.
Proof.
  unfold isSeparatorLine, specSeparatorLine.
  set (segments := split Char.pipe (stripPipes (trim line))).
  rewrite <- forallb_segmentMatches. split.
  - destruct (includes Char.dash (trim line)); [|discriminate].
    destruct (includes Char.pipe (trim line)); [|discriminate].
    simpl. rewrite andb_true_iff, Nat.ltb_lt. intros [Hlen Hall].
    repeat split; [lia | exact Hall].
  - intros [Hpipe [Hlen Hall]]. rewrite Hpipe.
    assert (Hdash : includes Char.dash (trim line) = true).
    { apply includes_true.
      destruct segments as [|segment rest] eqn:E; [simpl in Hlen; lia|].
      apply stripPipes_incl, (split_incl Char.pipe _ segment).
      - fold segments. rewrite E. now left.
      - apply SegmentShape_has_dash.
        apply forallb_segmentMatches in Hall.
        now inversion Hall. }
    rewrite Hdash. simpl. rewrite Hall, andb_true_r.
    apply Nat.ltb_lt. lia.
Qed.

Lemma isSeparatorLine_iff_witness :
  isSeparatorLine (js "| --- | :-: |") = true.
Proof.
  apply (proj2 (isSeparatorLine_iff (js "| --- | :-: |"))).
  split; [reflexivity|].
  apply (proj1 (isSeparatorLine_iff (js "| --- | :-: |"))).
  reflexivity.
Defined.

(** * Further properties of the pipeline *)

(** ** The text direction classifier *)

(** X1. The direction of a concatenation is [rtl] exactly when one of the
    two texts is [rtl]: while a text streams in, once an Arabic character
    has arrived the direction stays [rtl]. *)
Theorem getTextDirection_app (a b : jsstring) :
  getTextDirection (a ++ b) = rtl
  <-> getTextDirection a = rtl \/ getTextDirection b = rtl.
Proof.
  assert (Hdir : forall t, getTextDirection t = rtl <-> existsb isArabic t = true).
  { intros t. unfold getTextDirection. destruct t as [|c t]; simpl.
    - split; discriminate.
    - destruct (isArabic c || existsb isArabic t); split; congruence. }
  rewrite !Hdir, existsb_app, orb_true_iff. tauto.
Qed.

(** X2. A text made of ASCII characters only (code units below 128) is
    [ltr]. *)
Theorem getTextDirection_ascii (text : jsstring) :
  Forall (fun c => (c < 128)%N) text -> getTextDirection text = ltr.
Proof.
  intros Hascii. unfold getTextDirection.
  destruct (length text =? 0); [reflexivity|].
  replace (existsb isArabic text) with false; [reflexivity|].
  symmetry. induction Hascii as [|c t Hc _ IH]; simpl; [reflexivity|].
  rewrite IH, orb_false_r. unfold isArabic.
  apply andb_false_iff. left. apply N.leb_gt. lia.
Qed.

Lemma getTextDirection_app_witness :
  getTextDirection (js "Hello " ++ [1605%N; 1585%N]) = rtl.
Proof.
  apply (proj2 (getTextDirection_app (js "Hello ") [1605%N; 1585%N])).
  right. reflexivity.
Defined.

Lemma getTextDirection_ascii_witness :
  getTextDirection (js "Hello") = ltr.
Proof.
  apply getTextDirection_ascii.
  repeat constructor.
Defined.

(** ** The citation injector: which citations get a link *)

Lemma linkCount_app (p q : list part) :
  linkCount (p ++ q) = linkCount p + linkCount q.
Proof. unfold linkCount. now rewrite filter_app, length_app. Qed.

Lemma walk_linkCount (content : jsstring) (cs : list Processed.t) :
  forall parts lastIndex,
    linkCount (fst (walk content cs (parts, lastIndex)))
    <= linkCount parts + length cs
    /\ (linkCount (fst (walk content cs (parts, lastIndex)))
        = linkCount parts + length cs
        <-> ascendingFrom lastIndex cs = true).
Proof.
  induction cs as [|c cs IH]; intros parts lastIndex.
  - simpl. split; [lia|]. split; [reflexivity | intros _; lia].
  - rewrite walk_cons. unfold walkStep. cbn [ascendingFrom length].
    destruct (Z.ltb_spec (insertionPoint c) lastIndex) as [Hlt|Hge].
    + destruct (IH parts lastIndex) as [Hle _].
      replace (lastIndex <=? insertionPoint c)%Z with false
        by (symmetry; apply Z.leb_gt; lia).
      split; [lia|]. split; [lia | discriminate].
    + destruct (IH (parts ++ [Text (substring content lastIndex
                                       (insertionPoint c));
                              Link (Processed.sourceIndex c)])
                   (insertionPoint c)) as [Hle Hiff].
      rewrite linkCount_app in Hle, Hiff.
      change (linkCount [Text (substring content lastIndex (insertionPoint c));
                         Link (Processed.sourceIndex c)]) with 1 in Hle, Hiff.
      replace (lastIndex <=? insertionPoint c)%Z with true
        by (symmetry; apply Z.leb_le; lia).
      split; [lia|]. rewrite andb_true_l, <- Hiff. lia.
Qed.



Lemma walk_cursor_nonneg_filter (content : jsstring) (cs : list Processed.t) :
  forall parts lastIndex,
    (0 <= lastIndex)%Z ->
    walk content (filter (fun c => (0 <=? insertionPoint c)%Z) cs)
         (parts, lastIndex)
    = walk content cs (parts, lastIndex).
Proof.
  induction cs as [|c cs IH]; intros parts lastIndex Hpos; [reflexivity|].
  cbn [filter]. destruct (Z.leb_spec 0 (insertionPoint c)) as [Hnn|Hneg].
  - rewrite !walk_cons. unfold walkStep.
    destruct (Z.ltb_spec (insertionPoint c) lastIndex); apply IH; lia.
  - rewrite walk_cons. unfold walkStep.
    replace (insertionPoint c <? lastIndex)%Z with true
      by (symmetry; apply Z.ltb_lt; lia).
    now apply IH.
Qed.


(** ** The citation injector: where a link points *)

Lemma combine_seq_app_one {A : Type} (l : list A) (x : A) :
  forall start,
    combine (seq start (length (l ++ [x]))) (l ++ [x])
    = combine (seq start (length l)) l ++ [(start + length l, x)].
Proof.
  induction l as [|y l IH]; intros start; simpl.
  - now rewrite Nat.add_0_r.
  - rewrite IH. simpl. now rewrite Nat.add_succ_r.
Qed.

Lemma mapi_app_one {A B : Type} (f : A -> nat -> B) (l : list A) (x : A) :
  mapi f (l ++ [x]) = mapi f l ++ [f x (length l)].
Proof.
  unfold mapi. now rewrite combine_seq_app_one, map_app.
Qed.

Lemma uriToSourceData_app_one (sources : list Source.t) (s : Source.t) :
  uriToSourceData (sources ++ [s])
  = JSMap.set (Source.uri s)
      {| SourceData.index := length sources;
         SourceData.title := Source.title s |}
      (uriToSourceData sources).
Proof.
  unfold uriToSourceData, JSMap.ofEntries.
  now rewrite mapi_app_one, fold_left_app.
Qed.

(** The entry of a [uri] in [uriToSourceData] is the last source of the
    list that has this [uri]. *)
Lemma uriToSourceData_last (sources : list Source.t) :
  forall (u : jsstring) (sd : SourceData.t),
    JSMap.get u (uriToSourceData sources) = Some sd ->
    exists s,
      nth_error sources (SourceData.index sd) = Some s
      /\ Source.uri s = u
      /\ Source.title s = SourceData.title sd
      /\ (forall j s', SourceData.index sd < j ->
                       nth_error sources j = Some s' -> Source.uri s' <> u).
Proof.
  induction sources as [|s sources IH] using rev_ind; intros u sd Hget.
  - discriminate.
  - rewrite uriToSourceData_app_one in Hget.
    destruct (jsstring_eqb (Source.uri s) u) eqn:E.
    + apply jsstring_eqb_eq in E. subst u.
      rewrite get_set_same in Hget. inversion Hget; subst sd. simpl.
      exists s. split; [|split; [reflexivity|split; [reflexivity|]]].
      * rewrite nth_error_app2, Nat.sub_diag by lia. reflexivity.
      * intros j s' Hj Hnth. exfalso.
        assert (nth_error (sources ++ [s]) j = None); [|congruence].
        apply nth_error_None. rewrite length_app. simpl. lia.
    + apply jsstring_eqb_neq in E.
      rewrite get_set_other in Hget by congruence.
      destruct (IH u sd Hget) as (s0 & Hnth & Huri & Htitle & Hlast).
      assert (Hlt : SourceData.index sd < length sources).
      { apply nth_error_Some. congruence. }
      exists s0. split; [|split; [exact Huri|split; [exact Htitle|]]].
      * rewrite nth_error_app1 by lia. exact Hnth.
      * intros j s' Hj Hnth'.
        destruct (Nat.lt_ge_cases j (length sources)) as [Hin|Hout].
        -- rewrite nth_error_app1 in Hnth' by lia. eauto.
        -- rewrite nth_error_app2 in Hnth' by lia.
           destruct (j - length sources) as [|k]; simpl in Hnth'.
           ++ inversion Hnth'; subst s'. exact E.
           ++ destruct k; discriminate.
Qed.

Lemma insertByStart_in (c x : Processed.t) (l : list Processed.t) :
  In x (insertByStart c l) <-> x = c \/ In x l.
Proof.
  induction l as [|d l IH]; simpl.
  - intuition.
  - destruct (Processed.startIndex c <=? Processed.startIndex d)%Z; simpl.
    + intuition.
    + rewrite IH. intuition.
Qed.

Lemma sortByStart_in (x : Processed.t) (l : list Processed.t) :
  In x (sortByStart l) <-> In x l.
Proof.
  induction l as [|c l IH]; simpl; [tauto|].
  rewrite insertByStart_in, IH. intuition.
Qed.

Lemma nonNull_in {A : Type} (x : A) (l : list (option A)) :
  In x (nonNull l) <-> In (Some x) l.
Proof.
  induction l as [|[y|] l IH]; simpl.
  - tauto.
  - rewrite IH. split; intros [H|H]; auto; left; congruence.
  - rewrite IH. split; [auto|]. intros [H|H]; [discriminate | auto].
Qed.

Lemma processedCitations_in (citations : list Citation.t)
  (sources : list Source.t) (p : Processed.t) :
  In p (processedCitations citations sources) ->
  exists c, In c citations
            /\ attachSource (uriToSourceData sources) c = Some p.
Proof.
  unfold processedCitations. rewrite sortByStart_in, nonNull_in, in_map_iff.
  intros (c & Hattach & Hin). apply filter_In in Hin. exists c. tauto.
Qed.

Lemma walk_links (content : jsstring) (cs : list Processed.t) (i : nat) :
  forall parts lastIndex,
    In (Link i) (fst (walk content cs (parts, lastIndex))) ->
    In (Link i) parts \/ exists c, In c cs /\ Processed.sourceIndex c = i.
Proof.
  induction cs as [|c cs IH]; intros parts lastIndex Hin; [now left|].
  rewrite walk_cons in Hin. unfold walkStep in Hin.
  destruct (insertionPoint c <? lastIndex)%Z.
  - destruct (IH _ _ Hin) as [H|(c' & Hc' & Hi)]; [now left|].
    right. exists c'. split; [now right | exact Hi].
  - destruct (IH _ _ Hin) as [H|(c' & Hc' & Hi)].
    + apply in_app_or in H. destruct H as [H|[H|[H|[]]]]; [now left| |].
      * discriminate.
      * inversion H. right. exists c. split; [now left | reflexivity].
    + right. exists c'. split; [now right | exact Hi].
Qed.

(** X5. Every link in the output points at a source of the list: the link
    [Link i] comes from a citation of the input with a numeric
    [startIndex], and the source at position [i] is the last source of
    the list that has the citation's [uri]. *)
Theorem links_point_at_sources
  (content : jsstring) (citations : list Citation.t)
  (sources : list Source.t) (i : nat) :
  In (Link i) (resultParts content (processedCitations citations sources)) ->
  exists (c : Citation.t) (s : Source.t),
    In c citations
    /\ hasNumericStart c = true
    /\ nth_error sources i = Some s
    /\ Source.uri s = Citation.uri c
    /\ (forall j s', i < j -> nth_error sources j = Some s' ->
                     Source.uri s' <> Citation.uri c).
Proof.
  unfold resultParts. intros Hin.
  pose proof (walk_links content (processedCitations citations sources) i
                [] 0%Z) as Hwalk.
  destruct (walk content (processedCitations citations sources) ([], 0%Z))
    as [parts lastIndex]; simpl in *.
  apply in_app_or in Hin. destruct Hin as [Hin|[Hin|[]]]; [|discriminate].
  destruct (Hwalk Hin) as [[]|(p & Hp & Hi)].
  destruct (processedCitations_in _ _ _ Hp) as (c & Hc & Hattach).
  unfold attachSource in Hattach.
  destruct (Citation.startIndex c) as [start|] eqn:Estart; [|discriminate].
  destruct (JSMap.get (Citation.uri c) (uriToSourceData sources))
    as [sd|] eqn:Hget; [|discriminate].
  inversion Hattach; subst p. simpl in Hi. subst i.
  destruct (uriToSourceData_last sources _ _ Hget)
    as (s & Hnth & Huri & _ & Hlast).
  exists c, s. split; [exact Hc|].
  split; [unfold hasNumericStart; now rewrite Estart|].
  split; [exact Hnth|]. split; [exact Huri | exact Hlast].
Qed.

Lemma links_point_at_sources_witness :
  exists (c : Citation.t) (s : Source.t),
    In c overlappingCitations
    /\ hasNumericStart c = true
    /\ nth_error sourcesAB 1 = Some s
    /\ Source.uri s = Citation.uri c
    /\ (forall j s', 1 < j -> nth_error sourcesAB j = Some s' ->
                     Source.uri s' <> Citation.uri c).
Proof.
  apply (links_point_at_sources (js "ABCDEFGHIJ") overlappingCitations
           sourcesAB 1).
  vm_compute. tauto.
Defined.

(** ** The table extractor: trimming and rows *)

Lemma dropWhile_idem (p : N -> bool) (s : jsstring) :
  dropWhile p (dropWhile p s) = dropWhile p s.
Proof.
  induction s as [|c s IH]; simpl; [reflexivity|].
  destruct (p c) eqn:E; [exact IH|]. simpl. now rewrite E.
Qed.

Lemma dropWhile_length (p : N -> bool) (s : jsstring) :
  length (dropWhile p s) <= length s.
Proof.
  induction s as [|c s IH]; simpl; [lia|].
  destruct (p c); simpl; lia.
Qed.

Lemma dropWhile_fixed_head (p : N -> bool) (c : N) (r : jsstring) :
  dropWhile p (c :: r) = c :: r -> p c = false.
Proof.
  simpl. destruct (p c); [|reflexivity]. intros H.
  pose proof (dropWhile_length p r) as Hlen. rewrite H in Hlen.
  simpl in Hlen. lia.
Qed.

Lemma dropWhile_fixed_app (p : N -> bool) (x y : jsstring) :
  x <> [] -> dropWhile p x = x -> dropWhile p (x ++ y) = x ++ y.
Proof.
  destruct x as [|c r]; [congruence|]. intros _ H.
  apply dropWhile_fixed_head in H. simpl. now rewrite H.
Qed.

Lemma dropWhile_snoc_stop (p : N -> bool) (l : jsstring) (c : N) :
  p c = false -> dropWhile p (l ++ [c]) = dropWhile p l ++ [c].
Proof.
  intros Hc. induction l as [|x l IH]; simpl.
  - now rewrite Hc.
  - destruct (p x); [exact IH | reflexivity].
Qed.

Lemma trimStart_trimEnd (s : jsstring) :
  dropWhile is_ws s = s -> dropWhile is_ws (trimEnd s) = trimEnd s.
Proof.
  destruct s as [|c r]; [reflexivity|]. intros H.
  apply dropWhile_fixed_head in H. unfold trimEnd. simpl rev.
  rewrite dropWhile_snoc_stop by exact H.
  rewrite rev_app_distr. simpl. now rewrite H.
Qed.

(** [trim] leaves no white space at either end. *)
Lemma trim_no_outer_ws (s : jsstring) :
  dropWhile is_ws (trim s) = trim s
  /\ dropWhile is_ws (rev (trim s)) = rev (trim s).
Proof.
  unfold trim. split.
  - apply trimStart_trimEnd, dropWhile_idem.
  - unfold trimEnd. rewrite rev_involutive. apply dropWhile_idem.
Qed.

Lemma trim_fixed_iff (s : jsstring) :
  trim s = s
  <-> dropWhile is_ws s = s /\ dropWhile is_ws (rev s) = rev s.
Proof.
  split.
  - intros H. rewrite <- H. apply trim_no_outer_ws.
  - intros [H1 H2]. unfold trim, trimStart, trimEnd.
    now rewrite H1, H2, rev_involutive.
Qed.

Lemma trim_idem (s : jsstring) : trim (trim s) = trim s.
Proof. apply trim_fixed_iff, trim_no_outer_ws. Qed.

Lemma split_not_nil (sep : N) (s : jsstring) : split sep s <> [].
Proof.
  destruct s as [|c s]; simpl; [discriminate|].
  destruct (N.eqb c sep); [discriminate|].
  destruct (split sep s); discriminate.
Qed.

Lemma split_no_sep (sep : N) (s : jsstring) :
  forall seg, In seg (split sep s) -> ~ In sep seg.
Proof.
  induction s as [|c s IH]; simpl; intros seg Hseg.
  - destruct Hseg as [<-|[]]. intros [].
  - destruct (N.eqb_spec c sep) as [->|Hne].
    + destruct Hseg as [<-|Hseg]; [intros [] | auto].
    + destruct (split sep s) as [|seg0 segs] eqn:E.
      * destruct Hseg as [<-|[]]. intros [H|[]]. congruence.
      * destruct Hseg as [<-|Hseg].
        -- intros [H|H]; [congruence|]. apply (IH seg0); simpl; auto.
        -- apply IH. simpl. auto.
Qed.

(** X6. [parseRow] never returns the empty array (so the test
    [potentialHeaders.length > 0] always passes), and every cell it returns
    is trimmed and holds no pipe character. *)
Theorem parseRow_cells (rowString : jsstring) :
  parseRow rowString <> []
  /\ Forall (fun cell => trim cell = cell /\ ~ In Char.pipe cell)
            (parseRow rowString).
Proof.
  unfold parseRow. split.
  - intros H. apply map_eq_nil in H. now apply split_not_nil in H.
  - apply Forall_forall. intros cell Hin.
    apply in_map_iff in Hin. destruct Hin as (seg & <- & Hseg).
    split; [apply trim_idem|].
    intros Hpipe. apply trim_incl in Hpipe.
    exact (split_no_sep _ _ _ Hseg Hpipe).
Qed.

(** ** The grid scanner: what it consumes *)

Lemma join_cons (sep p : jsstring) (ps : list jsstring) :
  ps <> [] -> join sep (p :: ps) = p ++ sep ++ join sep ps.
Proof. destruct ps; [congruence | reflexivity]. Qed.

(** Splitting a text into lines and joining them back gives the text. *)
Lemma join_split (sep : N) (s : jsstring) : join [sep] (split sep s) = s.
Proof.
  induction s as [|c s IH]; [reflexivity|]. simpl split.
  destruct (N.eqb_spec c sep) as [->|Hne].
  - rewrite join_cons by apply split_not_nil. simpl. now rewrite IH.
  - destruct (split sep s) as [|seg segs] eqn:E.
    + now apply split_not_nil in E.
    + destruct segs as [|seg' segs]; simpl in *; now rewrite <- IH.
Qed.

Lemma collectRows_split (width : nat) (lines : list jsstring) :
  exists rowLines rest,
    lines = rowLines ++ rest
    /\ collectRows width lines = map parseRow rowLines
    /\ Forall (fun line => includes Char.pipe line = true
                           /\ length (parseRow line) = width) rowLines
    /\ match rest with
       | [] => True
       | line :: _ => includes Char.pipe line = false
                      \/ length (parseRow line) <> width
       end.
Proof.
  induction lines as [|line lines (rowLines & rest & Hl & Hc & Hall & Hstop)].
  - exists [], []. repeat split; constructor.
  - simpl. destruct (includes Char.pipe line) eqn:Epipe; simpl.
    + destruct (Nat.eqb_spec (length (parseRow line)) width) as [Hw|Hw]; simpl.
      * exists (line :: rowLines), rest. subst lines. rewrite Hc.
        repeat split; auto.
      * exists [], (line :: lines). repeat split; auto.
    + exists [], (line :: lines). repeat split; auto.
Qed.

Lemma findTable_split (lines : list jsstring) :
  forall i start hs rowsData,
    findTable i lines = Some (start, hs, rowsData) ->
    exists before header sep following,
      lines = before ++ header :: sep :: following
      /\ start = i + length before
      /\ isSeparatorLine sep = true
      /\ hs = parseRow header
      /\ length hs = length (split Char.pipe (stripWsPipes sep))
      /\ rowsData = collectRows (length hs) following.
Proof.
  induction lines as [|header rest IH]; intros i start hs rowsData;
    [discriminate|].
  destruct rest as [|sep following]; [discriminate|].
  cbn [findTable].
  assert (Hnext : findTable (S i) (sep :: following)
                  = Some (start, hs, rowsData) ->
                  exists before header0 sep0 following0,
                    header :: sep :: following
                    = before ++ header0 :: sep0 :: following0
                    /\ start = i + length before
                    /\ isSeparatorLine sep0 = true
                    /\ hs = parseRow header0
                    /\ length hs
                       = length (split Char.pipe (stripWsPipes sep0))
                    /\ rowsData = collectRows (length hs) following0).
  { intros H. destruct (IH _ _ _ _ H)
      as (before & h0 & s0 & f0 & Hl & Hs & Hrest).
    exists (header :: before), h0, s0, f0. rewrite Hl. simpl.
    split; [reflexivity|]. split; [lia | exact Hrest]. }
  destruct (isSeparatorLine sep) eqn:Esep; [|exact Hnext].
  destruct (0 <? length (parseRow header)); simpl; [|exact Hnext].
  destruct (Nat.eqb_spec (length (parseRow header))
              (length (split Char.pipe (stripWsPipes sep)))) as [Hw|Hw];
    [|exact Hnext].
  intros H; inversion H; subst.
  exists [], header, sep, following. simpl.
  repeat split; auto.
Qed.

Lemma filterIndex_all {A : Type} (keep : nat -> bool) (l : list A) :
  forall i,
    (forall j, i <= j < i + length l -> keep j = true) ->
    filterIndex keep i l = l.
Proof.
  induction l as [|x l IH]; intros i Hk; simpl; [reflexivity|].
  rewrite Hk by (simpl; lia). f_equal. apply IH. intros j Hj.
  apply Hk. simpl. lia.
Qed.

Lemma filterIndex_none {A : Type} (keep : nat -> bool) (l : list A) :
  forall i,
    (forall j, i <= j < i + length l -> keep j = false) ->
    filterIndex keep i l = [].
Proof.
  induction l as [|x l IH]; intros i Hk; simpl; [reflexivity|].
  rewrite Hk by (simpl; lia). apply IH. intros j Hj. apply Hk. simpl. lia.
Qed.

Lemma filterIndex_app {A : Type} (keep : nat -> bool) (l1 l2 : list A) :
  forall i,
    filterIndex keep i (l1 ++ l2)
    = filterIndex keep i l1 ++ filterIndex keep (i + length l1) l2.
Proof.
  induction l1 as [|x l1 IH]; intros i; simpl.
  - now rewrite Nat.add_0_r.
  - rewrite IH, Nat.add_succ_r. simpl. destruct (keep i); reflexivity.
Qed.

(** X7. When the grid scanner returns a table, the text is made of some
    lines, a header line, a separator line, at least one row line and the
    lines after; every row line holds a pipe; the table is the parsed
    header and the parsed rows; and the remaining text is the lines before
    and after, joined and trimmed. *)
Theorem grid_table_is_a_block_of_lines
  (markdown : jsstring) (t : ComparisonTableData) :
  table (_internalParseMarkdownForTable markdown) = Some t ->
  exists (before : list jsstring) (header sep : jsstring)
         (rowLines after : list jsstring),
    markdown
    = join [Char.lf] (before ++ header :: sep :: rowLines ++ after)
    /\ isSeparatorLine sep = true
    /\ rowLines <> []
    /\ Forall (fun line => includes Char.pipe line = true) rowLines
    /\ t = gridTable (parseRow header) (map parseRow rowLines)
    /\ remainingText (_internalParseMarkdownForTable markdown)
       = trim (join [Char.lf] (before ++ after)).
Proof.
  unfold _internalParseMarkdownForTable.
  pose proof (join_split Char.lf markdown) as Hjoin.
  destruct (findTable 0 (split Char.lf markdown))
    as [[[start hs] rowsData]|] eqn:Efind; [|discriminate].
  destruct (findTable_split _ _ _ _ _ Efind)
    as (before & header & sep & following & Hlines & Hstart & Hsep & Hhs
        & _ & Hrows).
  destruct (collectRows_split (length hs) following)
    as (rowLines & after & Hfol & Hcollect & Hall & _).
  destruct (length rowsData =? 0) eqn:Elen; [discriminate|].
  simpl. intros H; inversion H; subst t. clear H.
  exists before, header, sep, rowLines, after.
  assert (Hrd : rowsData = map parseRow rowLines) by congruence.
  assert (Hlen : length rowsData = length rowLines)
    by (rewrite Hrd; apply length_map).
  split; [rewrite <- Hjoin at 1; now rewrite Hlines, Hfol|].
  split; [exact Hsep|].
  split; [intros ->; simpl in Hlen; rewrite Hlen in Elen; discriminate|].
  split; [eapply Forall_impl; [|exact Hall]; simpl; tauto|].
  split; [now rewrite Hhs, Hrd|].
  f_equal. f_equal. rewrite Hlines, Hfol.
  change (header :: sep :: rowLines ++ after)
    with ((header :: sep :: rowLines) ++ after).
  rewrite !filterIndex_app.
  rewrite filterIndex_all, filterIndex_none, filterIndex_all;
    [reflexivity| | |].
  - intros j Hj. simpl in Hj. apply orb_true_iff. right.
    apply Nat.ltb_lt. simpl. lia.
  - intros j Hj. simpl in Hj. apply orb_false_iff.
    split; [apply Nat.ltb_ge | apply Nat.ltb_ge]; simpl; lia.
  - intros j Hj. apply orb_true_iff. left. apply Nat.ltb_lt. simpl. lia.
Qed.

Lemma internalParse_remaining_trimmed
  (markdown : jsstring) (t : ComparisonTableData) :
  table (_internalParseMarkdownForTable markdown) = Some t ->
  exists text,
    remainingText (_internalParseMarkdownForTable markdown) = trim text.
Proof.
  unfold _internalParseMarkdownForTable.
  destruct (findTable 0 (split Char.lf markdown))
    as [[[start hs] rowsData]|]; [|discriminate].
  destruct (length rowsData =? 0); [discriminate|].
  intros _. simpl. eexists. reflexivity.
Qed.

Lemma grid_table_is_a_block_of_lines_witness :
  exists (before : list jsstring) (header sep : jsstring)
         (rowLines after : list jsstring),
    gridExample
    = join [Char.lf] (before ++ header :: sep :: rowLines ++ after)
    /\ isSeparatorLine sep = true
    /\ rowLines <> []
    /\ Forall (fun line => includes Char.pipe line = true) rowLines
    /\ gridTable [js "Name"; js "Score"]
                 [[js "Alice"; js "90"]; [js "Bob"; js "85"]]
       = gridTable (parseRow header) (map parseRow rowLines)
    /\ remainingText (_internalParseMarkdownForTable gridExample)
       = trim (join [Char.lf] (before ++ after)).
Proof.
  apply (grid_table_is_a_block_of_lines gridExample
           (gridTable [js "Name"; js "Score"]
                      [[js "Alice"; js "90"]; [js "Bob"; js "85"]])).
  vm_compute. reflexivity.
Defined.

Lemma parseRow_length_pos (rowString : jsstring) :
  (0 <? length (parseRow rowString)) = true.
Proof.
  apply Nat.ltb_lt. unfold parseRow. rewrite length_map.
  pose proof (split_not_nil Char.pipe
                (trim (stripPipes (trim rowString)))) as H.
  destruct (split Char.pipe (trim (stripPipes (trim rowString))));
    [congruence | simpl; lia].
Qed.

Lemma findTable_next (i : nat) (line next : jsstring) (tl : list jsstring) :
  headerPair line next = false ->
  findTable i (line :: next :: tl) = findTable (S i) (next :: tl).
Proof.
  unfold headerPair. intros H. cbn [findTable].
  destruct (isSeparatorLine next); [|reflexivity].
  rewrite parseRow_length_pos. simpl in H. simpl andb. now rewrite H.
Qed.

Lemma findTable_here (i : nat) (header sep : jsstring)
  (following : list jsstring) :
  headerPair header sep = true ->
  findTable i (header :: sep :: following)
  = Some (i, parseRow header,
          collectRows (length (parseRow header)) following).
Proof.
  unfold headerPair. intros H. apply andb_true_iff in H.
  destruct H as [Hsep Hcount]. cbn [findTable].
  now rewrite Hsep, parseRow_length_pos, Hcount.
Qed.

(** The scan passes over the lines in which no two consecutive lines are
    a header and its separator. *)
Lemma findTable_skip (before : list jsstring) (header : jsstring)
  (rest : list jsstring) :
  noHeaderPair (before ++ [header]) = true ->
  forall i,
    findTable i (before ++ header :: rest)
    = findTable (i + length before) (header :: rest).
Proof.
  induction before as [|line before IH]; intros Hno i.
  - simpl. now rewrite Nat.add_0_r.
  - destruct before as [|l0 before'].
    + cbn [app length] in *. cbn [noHeaderPair] in Hno.
      apply andb_true_iff in Hno. destruct Hno as [Hpair _].
      apply negb_true_iff in Hpair.
      rewrite findTable_next by exact Hpair. f_equal. lia.
    + change ((line :: l0 :: before') ++ [header])
        with (line :: l0 :: (before' ++ [header])) in Hno.
      cbn [noHeaderPair] in Hno. apply andb_true_iff in Hno.
      destruct Hno as [Hpair Hno]. apply negb_true_iff in Hpair.
      change ((line :: l0 :: before') ++ header :: rest)
        with (line :: l0 :: (before' ++ header :: rest)).
      rewrite findTable_next by exact Hpair.
      change (l0 :: before' ++ header :: rest)
        with ((l0 :: before') ++ header :: rest).
      rewrite IH by exact Hno. f_equal. cbn [length]. lia.
Qed.

(** X8. The scan stops at the first pair of consecutive lines of which
    the second is a separator line with as many columns as the first has
    cells: when the line after the pair is no row (the text ends there, or
    the line has no pipe or another number of cells), no table is returned
    and the text is left whole, whatever follows, even a complete
    table. *)
Theorem first_header_without_rows_ends_the_scan
  (markdown : jsstring) (before : list jsstring) (header sep : jsstring)
  (following : list jsstring) :
  split Char.lf markdown = before ++ header :: sep :: following ->
  noHeaderPair (before ++ [header]) = true ->
  headerPair header sep = true ->
  match following with
  | [] => True
  | line :: _ => includes Char.pipe line = false
                 \/ length (parseRow line) <> length (parseRow header)
  end ->
  _internalParseMarkdownForTable markdown
  = {| remainingText := markdown; table := None |}.
Proof.
  intros Hlines Hno Hpair Hstop.
  unfold _internalParseMarkdownForTable.
  rewrite Hlines, findTable_skip by exact Hno.
  rewrite findTable_here by exact Hpair.
  assert (Hnone : collectRows (length (parseRow header)) following = []).
  { destruct following as [|line rest]; [reflexivity|]. simpl.
    destruct Hstop as [Hp|Hw].
    - now rewrite Hp.
    - destruct (includes Char.pipe line); [|reflexivity]. simpl.
      destruct (Nat.eqb_spec (length (parseRow line))
                  (length (parseRow header))); [contradiction|reflexivity]. }
  now rewrite Hnone.
Qed.

Lemma first_header_without_rows_ends_the_scan_witness :
  _internalParseMarkdownForTable headerWithoutRows
  = {| remainingText := headerWithoutRows; table := None |}
  /\ _internalParseMarkdownForTable separatorAsHeader
     = {| remainingText := separatorAsHeader; table := None |}.
Proof.
  split.
  - apply (first_header_without_rows_ends_the_scan headerWithoutRows
             [] (js "| A | B |") (js "|---|---|")
             [[]; js "| Name | Score |"; js "| --- | --- |";
              js "| Alice | 90 |"]).
    + vm_compute. reflexivity.
    + vm_compute. reflexivity.
    + vm_compute. reflexivity.
    + left. vm_compute. reflexivity.
  - apply (first_header_without_rows_ends_the_scan separatorAsHeader
             [js "a | b"] (js "|---|") (js "|---|")
             [js "no row"; js "| H |"; js "|---|"; js "| 1 |"]).
    + vm_compute. reflexivity.
    + vm_compute. reflexivity.
    + vm_compute. reflexivity.
    + left. vm_compute. reflexivity.
Defined.

Lemma joinNonEmpty_trimmed (a b : jsstring) :
  trim a = a -> trim b = b -> trim (joinNonEmpty a b) = joinNonEmpty a b.
Proof.
  intros Ha Hb. unfold joinNonEmpty. simpl.
  destruct a as [|x a']; destruct b as [|y b']; simpl; auto.
  apply trim_fixed_iff in Ha. apply trim_fixed_iff in Hb.
  destruct Ha as [Ha _]. destruct Hb as [_ Hb].
  apply trim_fixed_iff. split.
  - change (x :: a' ++ Char.lf :: Char.lf :: y :: b')
      with ((x :: a') ++ Char.lf :: Char.lf :: y :: b').
    apply dropWhile_fixed_app; [discriminate | exact Ha].
  - change (x :: a' ++ Char.lf :: Char.lf :: y :: b')
      with ((x :: a') ++ [Char.lf; Char.lf] ++ (y :: b')).
    rewrite !rev_app_distr, <- app_assoc.
    apply dropWhile_fixed_app; [|exact Hb].
    simpl. destruct (rev b'); discriminate.
Qed.

(** X9. Whenever [extractAndParseMarkdownTable] returns a table, the
    remaining text it returns has no white space at either end. *)
Theorem remainingText_trimmed_with_table
  (responseText : jsstring) (t : ComparisonTableData) :
  table (extractAndParseMarkdownTable responseText) = Some t ->
  trim (remainingText (extractAndParseMarkdownTable responseText))
  = remainingText (extractAndParseMarkdownTable responseText).
Proof.
  assert (Hgrid : forall markdown t',
             table (_internalParseMarkdownForTable markdown) = Some t' ->
             trim (remainingText (_internalParseMarkdownForTable markdown))
             = remainingText (_internalParseMarkdownForTable markdown)).
  { intros markdown t' H.
    destruct (internalParse_remaining_trimmed markdown t' H) as (text & ->).
    apply trim_idem. }
  unfold extractAndParseMarkdownTable.
  destruct (length responseText =? 0); [discriminate|].
  destruct (matchJsonBlock (trim responseText)) as [blockMatch|];
    [|apply Hgrid].
  destruct (negb (length (matched blockMatch) =? 0)
            && negb (length (group1 blockMatch) =? 0)); [|apply Hgrid].
  destruct (JSON_parse (group1 blockMatch)) as [parsedJson|].
  - destruct (validatedTable parsedJson); [|apply Hgrid].
    intros _. simpl. apply joinNonEmpty_trimmed; [apply trim_idem|].
    destruct (prop (js "text") parsedJson) as [[| | |text| |]|];
      try reflexivity. apply trim_idem.
  - destruct (table (_internalParseMarkdownForTable _)) eqn:Eout.
    + intros _. eapply Hgrid; eauto.
    + apply Hgrid.
Qed.

Lemma remainingText_trimmed_with_table_witness :
  trim (remainingText (extractAndParseMarkdownTable gridExample))
  = remainingText (extractAndParseMarkdownTable gridExample).
Proof.
  apply (remainingText_trimmed_with_table gridExample
           (gridTable [js "Name"; js "Score"]
                      [[js "Alice"; js "90"]; [js "Bob"; js "85"]])).
  vm_compute. reflexivity.
Defined.

(** ** The stream loop: the two maps *)

Lemma jsstring_eqb_sym (a b : jsstring) : jsstring_eqb a b = jsstring_eqb b a.
Proof.
  destruct (jsstring_eqb a b) eqn:E.
  - apply jsstring_eqb_eq in E. subst. symmetry. apply jsstring_eqb_refl.
  - apply jsstring_eqb_neq in E. symmetry. apply jsstring_eqb_neq. congruence.
Qed.

Lemma existsb_eqb_in (k : jsstring) (l : list jsstring) :
  existsb (jsstring_eqb k) l = true <-> In k l.
Proof.
  rewrite existsb_exists. split.
  - intros (x & Hin & Heq). apply jsstring_eqb_eq in Heq. now subst.
  - intros Hin. exists k. split; [exact Hin | apply jsstring_eqb_refl].
Qed.

Lemma firstSeenFrom_all_seen (l : list jsstring) :
  forall seen, (forall u, In u l -> In u seen) -> firstSeenFrom seen l = [].
Proof.
  induction l as [|u l IH]; intros seen Hall; simpl; [reflexivity|].
  replace (existsb (jsstring_eqb u) seen) with true.
  - apply IH. intros v Hv. apply Hall. now right.
  - symmetry. apply existsb_eqb_in. apply Hall. now left.
Qed.

Section KeyedMerge.
Variable A : Type.
Variable key : A -> jsstring.

Lemma keys_set_eq (m : JSMap.t A) (k : jsstring) (v : A) :
  JSMap.keys (JSMap.set k v m)
  = if existsb (jsstring_eqb k) (JSMap.keys m) then JSMap.keys m
    else JSMap.keys m ++ [k].
Proof.
  unfold JSMap.keys. induction m as [|[k' v'] m IH]; simpl; [reflexivity|].
  rewrite (jsstring_eqb_sym k k').
  destruct (jsstring_eqb k' k) eqn:E; simpl.
  - apply jsstring_eqb_eq in E. now subst.
  - rewrite IH. now destruct (existsb (jsstring_eqb k) (map fst m)).
Qed.

Lemma mergeBy_keys (l : list A) :
  forall m,
    JSMap.keys (fold_left (setBy key) l m)
    = JSMap.keys m ++ firstSeenFrom (JSMap.keys m) (map key l).
Proof.
  induction l as [|x l IH]; intros m; simpl.
  - now rewrite app_nil_r.
  - rewrite IH.
    change (setBy key m x) with (JSMap.set (key x) x m).
    rewrite keys_set_eq.
    destruct (existsb (jsstring_eqb (key x)) (JSMap.keys m)); [reflexivity|].
    now rewrite <- app_assoc.
Qed.

Lemma mergeBy_keys_NoDup (l : list A) :
  forall m, NoDup (JSMap.keys m) ->
            NoDup (JSMap.keys (fold_left (setBy key) l m)).
Proof.
  induction l as [|x l IH]; intros m Hm; simpl; [exact Hm|].
  apply IH. unfold setBy. now apply keys_set_NoDup.
Qed.

Lemma lastBy_snoc (k : jsstring) (l : list A) (x : A) :
  lastBy key k (l ++ [x])
  = if jsstring_eqb (key x) k then Some x else lastBy key k l.
Proof. unfold lastBy. rewrite rev_app_distr. reflexivity. Qed.

Lemma lastBy_in (l : list A) (x : A) :
  In x l -> lastBy key (key x) l <> None.
Proof.
  intros Hin Hnone. unfold lastBy in Hnone.
  apply in_rev in Hin. apply (find_none _ _ Hnone x) in Hin.
  now rewrite jsstring_eqb_refl in Hin.
Qed.

(** After the merge a key holds the last element filed under it, or what
    the map held before when the list has none. *)
Lemma mergeBy_get (l : list A) (k : jsstring) :
  forall m,
    JSMap.get k (fold_left (setBy key) l m)
    = match lastBy key k l with
      | Some x => Some x
      | None => JSMap.get k m
      end.
Proof.
  induction l as [|x l IH] using rev_ind; intros m; [reflexivity|].
  rewrite fold_left_app, lastBy_snoc. simpl. unfold setBy at 1.
  destruct (jsstring_eqb (key x) k) eqn:E.
  - apply jsstring_eqb_eq in E. subst k. apply get_set_same.
  - apply jsstring_eqb_neq in E. rewrite get_set_other by congruence.
    apply IH.
Qed.

Lemma map_ext_NoDup (m1 : JSMap.t A) :
  forall m2,
    JSMap.keys m1 = JSMap.keys m2 ->
    (forall k, JSMap.get k m1 = JSMap.get k m2) ->
    NoDup (JSMap.keys m1) ->
    m1 = m2.
Proof.
  induction m1 as [|[k v] m1 IH]; intros [|[k2 v2] m2] Hkeys Hget Hnd;
    try discriminate; [reflexivity|].
  simpl in Hkeys. inversion Hkeys as [[Hk Hrest]]. subst k2.
  inversion Hnd as [|? ? Hnotin Hnd']; subst.
  pose proof (Hget k) as Hv. simpl in Hv.
  rewrite jsstring_eqb_refl in Hv. inversion Hv; subst v2. f_equal.
  apply IH; [exact Hrest| |exact Hnd'].
  intros k'. destruct (jsstring_eqb k k') eqn:E.
  - apply jsstring_eqb_eq in E. subst k'.
    destruct (JSMap.get k m1) eqn:E1.
    + exfalso. apply Hnotin. apply get_in_keys. congruence.
    + destruct (JSMap.get k m2) eqn:E2; [|reflexivity].
      exfalso. apply Hnotin. fold (JSMap.keys m1). rewrite Hrest.
      apply get_in_keys. congruence.
  - pose proof (Hget k') as Hk'. simpl in Hk'. now rewrite E in Hk'.
Qed.

(** Merging the same list a second time changes nothing. *)
Lemma mergeBy_idem (l : list A) (m : JSMap.t A) :
  NoDup (JSMap.keys m) ->
  fold_left (setBy key) l (fold_left (setBy key) l m)
  = fold_left (setBy key) l m.
Proof.
  intros Hnd. apply map_ext_NoDup.
  - rewrite (mergeBy_keys l (fold_left (setBy key) l m)).
    rewrite firstSeenFrom_all_seen; [apply app_nil_r|].
    intros u Hu. apply in_map_iff in Hu. destruct Hu as (x & <- & Hx).
    apply get_in_keys. rewrite mergeBy_get.
    pose proof (lastBy_in l x Hx).
    destruct (lastBy key (key x) l); congruence.
  - intros k. rewrite !mergeBy_get.
    now destruct (lastBy key k l).
  - apply mergeBy_keys_NoDup, mergeBy_keys_NoDup, Hnd.
Qed.

End KeyedMerge.

(** ** The key of a citation *)

Lemma js_inj (a b : string) : js a = js b -> a = b.
Proof.
  unfold js. intros H.
  apply (f_equal (map ascii_of_N)) in H. rewrite !map_map in H.
  rewrite !(map_ext _ (fun x => x) ascii_N_embedding), !map_id in H.
  apply (f_equal string_of_list_ascii) in H.
  now rewrite !string_of_list_ascii_of_string in H.
Qed.

Lemma to_int_not_nil (z : Z) :
  Z.to_int z <> Decimal.Pos Decimal.Nil /\ Z.to_int z <> Decimal.Neg Decimal.Nil.
Proof.
  destruct z; simpl; split; intros H; inversion H;
    now apply (Unsigned.to_uint_nonnil p).
Qed.

Lemma numberToString_inj (a b : Z) :
  numberToString a = numberToString b -> a = b.
Proof.
  unfold numberToString. intros H. apply js_inj in H.
  apply (f_equal NilZero.int_of_string) in H.
  destruct (to_int_not_nil a), (to_int_not_nil b).
  rewrite !NilZero.isi in H by assumption.
  inversion H. now apply DecimalZ.to_int_inj.
Qed.

Lemma uint_digits (d : Decimal.uint) :
  Forall (fun c => is_digit c = true) (js (NilEmpty.string_of_uint d)).
Proof.
  induction d; simpl; constructor; auto.
Qed.

Lemma uint_string_shape (d : Decimal.uint) :
  exists c rest,
    js (NilZero.string_of_uint d) = c :: rest
    /\ is_digit c = true
    /\ Forall (fun x => is_digit x = true) rest.
Proof.
  destruct d;
    try (eexists; eexists; split; [reflexivity|];
         split; [reflexivity | apply uint_digits]).
  exists 48%N, []. repeat split. constructor.
Qed.

Lemma digits_no_dash (l : jsstring) :
  Forall (fun x => is_digit x = true) l -> ~ In Char.dash l.
Proof.
  intros H Hin. rewrite Forall_forall in H. apply H in Hin. discriminate.
Qed.

(** The text of a number is a first character, a dash or a digit, and
    then digits. *)
Lemma numberToString_shape (z : Z) :
  exists c rest,
    numberToString z = c :: rest /\ c <> 117%N /\ ~ In Char.dash rest.
Proof.
  unfold numberToString. destruct (Z.to_int z) as [d|d]; simpl.
  - destruct (uint_string_shape d) as (c & rest & Hs & Hc & Hrest).
    exists c, rest. split; [exact Hs|]. split.
    + intros ->. discriminate.
    + now apply digits_no_dash.
  - destruct (uint_string_shape d) as (c & rest & Hs & Hc & Hrest).
    exists 45%N, (c :: rest). split; [|split].
    + change (js (String "-" (NilZero.string_of_uint d)))
        with (45%N :: js (NilZero.string_of_uint d)).
      now rewrite Hs.
    + discriminate.
    + apply digits_no_dash. now constructor.
Qed.

Lemma first_dash (r1 : jsstring) :
  forall r2 u1 u2,
    ~ In Char.dash r1 -> ~ In Char.dash r2 ->
    r1 ++ Char.dash :: u1 = r2 ++ Char.dash :: u2 ->
    r1 = r2 /\ u1 = u2.
Proof.
  induction r1 as [|c r1 IH]; intros [|c2 r2] u1 u2 H1 H2 Heq;
    simpl in Heq; inversion Heq; subst.
  - auto.
  - exfalso. apply H2. now left.
  - exfalso. apply H1. now left.
  - destruct (IH r2 u1 u2) as [-> ->]; auto.
    + intros H. apply H1. now right.
    + intros H. apply H2. now right.
Qed.

Lemma citationKey_same_pair (c1 c2 : Citation.t) :
  citationKey c1 = citationKey c2 ->
  Citation.startIndex c1 = Citation.startIndex c2
  /\ Citation.uri c1 = Citation.uri c2.
Proof.
  unfold citationKey.
  assert (Hundef : js "undefined" = 117%N :: js "ndefined") by reflexivity.
  change (js "-" ++ Citation.uri c1) with (Char.dash :: Citation.uri c1).
  change (js "-" ++ Citation.uri c2) with (Char.dash :: Citation.uri c2).
  destruct (Citation.startIndex c1) as [z1|];
    destruct (Citation.startIndex c2) as [z2|].
  - destruct (numberToString_shape z1) as (x1 & r1 & E1 & _ & N1).
    destruct (numberToString_shape z2) as (x2 & r2 & E2 & _ & N2).
    intros H. pose proof H as H'. rewrite E1, E2 in H'. simpl in H'.
    inversion H' as [[Hx Hrest]].
    destruct (first_dash _ _ _ _ N1 N2 Hrest) as [Hr Hu].
    split; [|exact Hu]. f_equal. apply numberToString_inj. congruence.
  - destruct (numberToString_shape z1) as (x1 & r1 & E1 & Hx1 & _).
    rewrite E1, Hundef. simpl. intros H. inversion H. congruence.
  - destruct (numberToString_shape z2) as (x2 & r2 & E2 & Hx2 & _).
    rewrite E2, Hundef. simpl. intros H. inversion H. congruence.
  - simpl. intros H. inversion H as [Hu]. now split.
Qed.

(** X10. The key [`${c.startIndex}-${c.uri}`] tells citations apart: two
    citations have the same key exactly when they have the same
    [startIndex] (or both none) and the same [uri], even when a [uri]
    itself holds a dash. *)
Theorem citationKey_inj (c1 c2 : Citation.t) :
  citationKey c1 = citationKey c2
  <-> Citation.startIndex c1 = Citation.startIndex c2
      /\ Citation.uri c1 = Citation.uri c2.
Proof.
  split.
  - apply citationKey_same_pair.
  - intros [Hstart Huri]. unfold citationKey. now rewrite Hstart, Huri.
Qed.

Lemma citationKey_inj_witness :
  Citation.startIndex (mkCitation (Some 1%Z) None "2-a")
  = Citation.startIndex (mkCitation (Some 1%Z) (Some 9%Z) "2-a")
  /\ Citation.uri (mkCitation (Some 1%Z) None "2-a")
     = Citation.uri (mkCitation (Some 1%Z) (Some 9%Z) "2-a").
Proof.
  apply (proj1 (citationKey_inj (mkCitation (Some 1%Z) None "2-a")
                  (mkCitation (Some 1%Z) (Some 9%Z) "2-a"))).
  reflexivity.
Defined.

(** ** The stream loop: what the final message holds *)

Section KeyedValues.
Variable A : Type.
Variable key : A -> jsstring.

Lemma mergeBy_keyedBy (l : list A) :
  forall m, keyedBy key m -> keyedBy key (fold_left (setBy key) l m).
Proof.
  induction l as [|x l IH]; intros m Hm; simpl; [exact Hm|].
  apply IH. unfold setBy, keyedBy in *. clear IH.
  induction Hm as [|[k v] m Hkv Hm IHm]; simpl.
  - constructor; [reflexivity | constructor].
  - destruct (jsstring_eqb k (key x)); constructor; auto.
Qed.

Lemma keyedBy_values (m : JSMap.t A) :
  keyedBy key m -> map key (JSMap.values m) = JSMap.keys m.
Proof.
  unfold JSMap.values, JSMap.keys.
  induction 1 as [|[k v] m Hkv Hm IH]; simpl in *; [reflexivity|].
  now rewrite IH, Hkv.
Qed.

Lemma get_in_values_gen (m : JSMap.t A) (k : jsstring) (x : A) :
  JSMap.get k m = Some x -> In x (JSMap.values m).
Proof.
  unfold JSMap.values. induction m as [|[k0 v0] m IH]; simpl; [discriminate|].
  destruct (jsstring_eqb k0 k).
  - intros H; inversion H; now left.
  - intros H; right; auto.
Qed.

Lemma lastBy_last (before after : list A) (c : A) :
  (forall x, In x after -> key x <> key c) ->
  lastBy key (key c) (before ++ c :: after) = Some c.
Proof.
  induction after as [|x after IH] using rev_ind; intros Hafter.
  - change (before ++ [c]) with (before ++ [c]).
    rewrite lastBy_snoc. now rewrite jsstring_eqb_refl.
  - change (before ++ c :: after ++ [x])
      with (before ++ (c :: after) ++ [x]).
    rewrite app_assoc, lastBy_snoc.
    assert (Hx : jsstring_eqb (key x) (key c) = false).
    { apply jsstring_eqb_neq. apply Hafter. apply in_or_app. right. now left. }
    rewrite Hx. apply IH. intros y Hy. apply Hafter.
    apply in_or_app. now left.
Qed.

End KeyedValues.

Lemma consumeStream_state (chunks : list Chunk.t) :
  forall st,
    Stream.fullText (fold_left consumeChunk chunks st)
    = Stream.fullText st ++ concat (map chunkText chunks)
    /\ Stream.sourcesMap (fold_left consumeChunk chunks st)
       = fold_left (setBy Source.uri)
           (arrivals (map Chunk.sources chunks)) (Stream.sourcesMap st)
    /\ Stream.citationsMap (fold_left consumeChunk chunks st)
       = fold_left (setBy citationKey)
           (citationArrivals chunks) (Stream.citationsMap st).
Proof.
  induction chunks as [|chunk chunks IH]; intros st; simpl.
  - now rewrite app_nil_r.
  - destruct (IH (consumeChunk st chunk)) as (Ht & Hs & Hc).
    rewrite Ht, Hs, Hc, !fold_left_app. simpl.
    split; [now rewrite <- app_assoc|].
    split; [destruct (Chunk.sources chunk) | destruct (Chunk.citations chunk)];
      reflexivity.
Qed.

(** X11. The source collection lists the [uri]s in the order in which
    they were first seen: a source that comes again keeps the place of
    its first arrival. *)
Theorem merged_sources_in_first_seen_order
  (chunks : list (option (list Source.t))) :
  map Source.uri (finalSources chunks)
  = firstSeenFrom [] (map Source.uri (arrivals chunks)).
Proof.
  unfold finalSources, mergeChunks. rewrite mergeChunks_arrivals.
  change (fold_left setSource) with (fold_left (setBy Source.uri)).
  rewrite keyedBy_values by (apply mergeBy_keyedBy; constructor).
  apply mergeBy_keys.
Qed.

(** X12. A chunk that is delivered twice in a row leaves the two maps as
    they are after its first delivery: sources and citations that are
    sent again add nothing and move nothing. *)
Theorem resent_chunk_changes_no_map (chunks : list Chunk.t) (chunk : Chunk.t) :
  Stream.sourcesMap
    (consumeChunk (consumeChunk (consumeStream chunks) chunk) chunk)
  = Stream.sourcesMap (consumeChunk (consumeStream chunks) chunk)
  /\ Stream.citationsMap
       (consumeChunk (consumeChunk (consumeStream chunks) chunk) chunk)
     = Stream.citationsMap (consumeChunk (consumeStream chunks) chunk).
Proof.
  unfold consumeStream.
  destruct (consumeStream_state chunks
              {| Stream.fullText := []; Stream.sourcesMap := [];
                 Stream.citationsMap := [] |}) as (_ & Hs & Hc).
  simpl in Hs, Hc. simpl. rewrite Hs, Hc. split.
  - destruct (Chunk.sources chunk) as [l|]; simpl; [|reflexivity].
    change (fold_left setSource) with (fold_left (setBy Source.uri)).
    apply mergeBy_idem, mergeBy_keys_NoDup. constructor.
  - destruct (Chunk.citations chunk) as [l|]; simpl; [|reflexivity].
    change (fold_left setCitation) with (fold_left (setBy citationKey)).
    apply mergeBy_idem, mergeBy_keys_NoDup. constructor.
Qed.

(** X13. The citations of the final message hold each pair of
    [startIndex] and [uri] once, and a citation that arrived is in the
    message unless a later one has the same [startIndex] and [uri]. *)
Theorem final_citations_deduplicated (chunks : list Chunk.t) :
  NoDup (map (fun c => (Citation.startIndex c, Citation.uri c))
             (Message.citations (finalMessage (consumeStream chunks))))
  /\ (forall (before after : list Citation.t) (c : Citation.t),
        citationArrivals chunks = before ++ c :: after ->
        (forall c', In c' after ->
                    ~ (Citation.startIndex c' = Citation.startIndex c
                       /\ Citation.uri c' = Citation.uri c)) ->
        In c (Message.citations (finalMessage (consumeStream chunks)))).
Proof.
  unfold finalMessage, consumeStream. simpl.
  destruct (consumeStream_state chunks
              {| Stream.fullText := []; Stream.sourcesMap := [];
                 Stream.citationsMap := [] |}) as (_ & _ & Hc).
  simpl in Hc. rewrite Hc. split.
  - assert (Hkeys : NoDup (map citationKey
              (JSMap.values (fold_left (setBy citationKey)
                               (citationArrivals chunks) [])))).
    { rewrite keyedBy_values by (apply mergeBy_keyedBy; constructor).
      apply mergeBy_keys_NoDup. constructor. }
    set (pairOf := fun c => (Citation.startIndex c, Citation.uri c)).
    set (keyOf := fun pr : option Z * jsstring =>
                    match fst pr with
                    | Some z => numberToString z
                    | None => js "undefined"
                    end ++ js "-" ++ snd pr).
    rewrite (map_ext citationKey (fun c => keyOf (pairOf c))) in Hkeys
      by reflexivity.
    rewrite <- map_map in Hkeys. now apply NoDup_map_inv in Hkeys.
  - intros before after c Harr Hlater.
    apply (get_in_values_gen _ _ (citationKey c)).
    rewrite mergeBy_get, Harr, lastBy_last; [reflexivity|].
    intros c' Hc' Hkey. apply (Hlater c' Hc').
    now apply citationKey_same_pair.
Qed.

Lemma final_citations_deduplicated_witness :
  In (mkCitation (Some 1%Z) (Some 5%Z) "a")
     (Message.citations (finalMessage (consumeStream resentCitationChunks))).
Proof.
  apply (proj2 (final_citations_deduplicated resentCitationChunks)
           [mkCitation (Some 1%Z) (Some 4%Z) "a"]
           [mkCitation (Some 1%Z) (Some 5%Z) "b"]
           (mkCitation (Some 1%Z) (Some 5%Z) "a")).
  - reflexivity.
  - intros c' [<-|[]] [_ H]. vm_compute in H. discriminate.
Defined.

(** ** Sources read back from the history *)

Lemma validSource_sourceToJson (s : Source.t) :
  validSource (sourceToJson s) = Some s.
Proof. destruct s as [title uri]. reflexivity. Qed.

Lemma validSources_roundtrip (l : list Source.t) :
  nonNull (map validSource (map sourceToJson l)) = l.
Proof.
  induction l as [|s l IH]; [reflexivity|].
  cbn [map]. rewrite validSource_sourceToJson. cbn [nonNull]. now rewrite IH.
Qed.


(** ** The fenced block: what the regular expression matches *)

Lemma stripPrefix_some (p : jsstring) :
  forall s r, stripPrefix p s = Some r <-> s = p ++ r.
Proof.
  induction p as [|x p IH]; intros s r; simpl.
  - split; [intros H; now inversion H | intros ->; reflexivity].
  - destruct s as [|y s]; [split; discriminate|].
    destruct (N.eqb_spec x y) as [->|Hne].
    + rewrite IH. split; [intros ->; reflexivity | intros H; now inversion H].
    + split; [discriminate | intros H; inversion H; congruence].
Qed.

Section Matcher.
Variable R : Type.
Variable k : jsstring -> option R.

Lemma wsStar_some (s : jsstring) (r : R) :
  wsStar k s = Some r ->
  exists w s',
    s = w ++ s' /\ allWs w /\ k s' = Some r
    /\ match s' with
       | c :: t => is_ws c = true -> wsStar k t = None
       | [] => True
       end.
Proof.
  induction s as [|c s IH]; simpl; intros H.
  - exists [], []. repeat split; [constructor | exact H].
  - destruct (is_ws c) eqn:Ec.
    + destruct (wsStar k s) as [r'|] eqn:E.
      * inversion H; subst r'.
        destruct (IH eq_refl) as (w & s' & -> & Hw & Hk & Hgreedy).
        exists (c :: w), s'. repeat split; [constructor; auto | exact Hk |].
        exact Hgreedy.
      * exists [], (c :: s). repeat split; [constructor | exact H | auto].
    + exists [], (c :: s). repeat split; [constructor | exact H |].
      congruence.
Qed.

Lemma wsStar_complete (w s' : jsstring) :
  allWs w -> k s' <> None -> wsStar k (w ++ s') <> None.
Proof.
  intros Hw Hk. induction Hw as [|c w Hc _ IH]; simpl.
  - destruct s' as [|c s']; simpl; [exact Hk|].
    destruct (is_ws c); [|exact Hk].
    destruct (wsStar k s'); [discriminate | exact Hk].
  - rewrite Hc. destruct (wsStar k (w ++ s')); [discriminate | contradiction].
Qed.

Lemma lazyAny_some (s : jsstring) :
  forall captured r,
    lazyAny k s = Some (captured, r) ->
    exists s', s = captured ++ s' /\ k s' = Some r
               /\ (forall a x b, captured = a ++ x :: b ->
                                 k (x :: b ++ s') = None).
Proof.
  induction s as [|c s IH]; intros captured r; simpl.
  - destruct (k []) as [r'|] eqn:E; [|discriminate].
    intros H; inversion H; subst. exists []. repeat split; auto.
    intros a x b Hcap. destruct a; discriminate.
  - destruct (k (c :: s)) as [r'|] eqn:E.
    + intros H; inversion H; subst. exists (c :: s). repeat split; auto.
      intros a x b Hcap. destruct a; discriminate.
    + destruct (lazyAny k s) as [[cap' r']|] eqn:El; [|discriminate].
      intros H; inversion H; subst.
      destruct (IH cap' r eq_refl) as (s' & -> & Hk & Hmin).
      exists s'. repeat split; auto.
      intros a x b Hcap. destruct a as [|a0 a]; simpl in Hcap;
        inversion Hcap; subst.
      * exact E.
      * eapply Hmin. reflexivity.
Qed.

Lemma lazyAny_complete (captured s' : jsstring) :
  k s' <> None -> lazyAny k (captured ++ s') <> None.
Proof.
  intros Hk. induction captured as [|c captured IH]; simpl.
  - destruct s' as [|c s']; simpl.
    + destruct (k []); [discriminate | contradiction].
    + destruct (k (c :: s')); [discriminate | contradiction].
  - destruct (k (c :: captured ++ s')); [discriminate|].
    destruct (lazyAny k (captured ++ s')) as [[cap r]|];
      [discriminate | contradiction].
Qed.

End Matcher.

Lemma closingFence_some (s rest : jsstring) :
  closingFence s = Some rest ->
  exists w, s = w ++ fence ++ rest /\ allWs w.
Proof.
  unfold closingFence. intros H.
  destruct (wsStar_some _ _ _ _ H) as (w & s' & -> & Hw & Hk & _).
  apply stripPrefix_some in Hk. subst s'. now exists w.
Qed.

Lemma closingFence_complete (w rest : jsstring) :
  allWs w -> closingFence (w ++ fence ++ rest) <> None.
Proof.
  intros Hw. unfold closingFence. apply wsStar_complete; [exact Hw|].
  assert (H : stripPrefix fence (fence ++ rest) = Some rest)
    by now apply stripPrefix_some.
  congruence.
Qed.

Lemma blockBody_some (s captured rest : jsstring) :
  blockBody s = Some (captured, rest) ->
  exists w1 w2,
    s = w1 ++ captured ++ w2 ++ fence ++ rest
    /\ allWs w1 /\ allWs w2 /\ trim captured = captured.
Proof.
  unfold blockBody. intros H.
  destruct (wsStar_some _ _ _ _ H) as (w1 & s' & -> & Hw1 & Hk & Hgreedy).
  destruct (lazyAny_some _ _ _ _ _ Hk) as (s'' & -> & Hclose & Hmin).
  destruct (closingFence_some _ _ Hclose) as (w2 & -> & Hw2).
  exists w1, w2. repeat split; auto.
  apply trim_fixed_iff. split.
  - destruct captured as [|c cap']; [reflexivity|]. simpl.
    destruct (is_ws c) eqn:Ec; [|reflexivity]. exfalso.
    simpl in Hgreedy. specialize (Hgreedy Ec).
    apply (wsStar_complete _ (lazyAny closingFence) []
             (cap' ++ w2 ++ fence ++ rest)); [constructor| |exact Hgreedy].
    apply lazyAny_complete. now apply closingFence_complete.
  - destruct (rev captured) as [|x r] eqn:Erev; [reflexivity|]. simpl.
    destruct (is_ws x) eqn:Ex; [|reflexivity]. exfalso.
    assert (Hcap : captured = rev r ++ [x]).
    { rewrite <- (rev_involutive captured), Erev. reflexivity. }
    specialize (Hmin (rev r) x [] Hcap). simpl in Hmin.
    apply (closingFence_complete (x :: w2) rest); [now constructor|].
    exact Hmin.
Qed.

Lemma blockBody_complete (w1 captured w2 rest : jsstring) :
  allWs w1 -> allWs w2 ->
  blockBody (w1 ++ captured ++ w2 ++ fence ++ rest) <> None.
Proof.
  intros H1 H2. unfold blockBody. apply wsStar_complete; [exact H1|].
  apply lazyAny_complete. now apply closingFence_complete.
Qed.

Lemma blockAt_some (s captured rest : jsstring) :
  blockAt s = Some (captured, rest) ->
  exists m, s = m ++ rest /\ blockShape m captured
            /\ trim captured = captured.
Proof.
  unfold blockAt.
  destruct (stripPrefix fence s) as [s1|] eqn:E1; [|discriminate].
  apply stripPrefix_some in E1. subst s.
  assert (Hbody : forall tag body,
             (tag = js "json" \/ tag = []) ->
             blockBody body = Some (captured, rest) ->
             exists m, fence ++ tag ++ body = m ++ rest
                       /\ blockShape m captured
                       /\ trim captured = captured).
  { intros tag body Htag Hb.
    destruct (blockBody_some _ _ _ Hb) as (w1 & w2 & -> & H1 & H2 & Ht).
    exists (fence ++ tag ++ w1 ++ captured ++ w2 ++ fence).
    split; [now rewrite <- !app_assoc|]. split; [|exact Ht].
    exists tag, w1, w2. auto. }
  destruct (stripPrefix (js "json") s1) as [s2|] eqn:E2.
  - apply stripPrefix_some in E2. subst s1.
    destruct (blockBody s2) as [[cap r]|] eqn:Eb.
    + intros H; inversion H; subst. apply (Hbody (js "json") s2); auto.
    + intros H. apply (Hbody [] (js "json" ++ s2)); auto.
  - intros H. apply (Hbody [] s1); auto.
Qed.

Lemma blockAt_complete (m captured rest : jsstring) :
  blockShape m captured -> blockAt (m ++ rest) <> None.
Proof.
  intros (tag & w1 & w2 & -> & Htag & H1 & H2).
  unfold blockAt. rewrite <- !app_assoc.
  assert (E1 : stripPrefix fence
                 (fence ++ tag ++ w1 ++ captured ++ w2 ++ fence ++ rest)
               = Some (tag ++ w1 ++ captured ++ w2 ++ fence ++ rest))
    by now apply stripPrefix_some.
  rewrite E1.
  pose proof (blockBody_complete w1 captured w2 rest H1 H2) as Hb.
  destruct Htag as [-> | ->].
  - assert (E2 : stripPrefix (js "json")
                   (js "json" ++ w1 ++ captured ++ w2 ++ fence ++ rest)
                 = Some (w1 ++ captured ++ w2 ++ fence ++ rest))
      by now apply stripPrefix_some.
    rewrite E2.
    destruct (blockBody (w1 ++ captured ++ w2 ++ fence ++ rest));
      [discriminate | contradiction].
  - change ([] ++ w1 ++ captured ++ w2 ++ fence ++ rest)
      with (w1 ++ captured ++ w2 ++ fence ++ rest).
    destruct (match stripPrefix (js "json")
                      (w1 ++ captured ++ w2 ++ fence ++ rest) with
              | Some s2 => blockBody s2
              | None => None
              end); [discriminate|].
    destruct (blockBody (w1 ++ captured ++ w2 ++ fence ++ rest));
      [discriminate | contradiction].
Qed.

Lemma matchJsonBlock_some (text : jsstring) :
  forall blockMatch,
    matchJsonBlock text = Some blockMatch ->
    exists before after,
      text = before ++ matched blockMatch ++ after
      /\ blockShape (matched blockMatch) (group1 blockMatch)
      /\ trim (group1 blockMatch) = group1 blockMatch
      /\ (forall b1 x b2,
             before = b1 ++ x :: b2 ->
             blockAt (x :: b2 ++ matched blockMatch ++ after) = None).
Proof.
  assert (Hhere : forall t captured rest,
             blockAt t = Some (captured, rest) ->
             exists after,
               t = firstn (length t - length rest) t ++ after
               /\ blockShape (firstn (length t - length rest) t) captured
               /\ trim captured = captured).
  { intros t captured rest H.
    destruct (blockAt_some _ _ _ H) as (m & -> & Hshape & Htrim).
    replace (length (m ++ rest) - length rest) with (length m)
      by (rewrite length_app; lia).
    rewrite firstn_app, Nat.sub_diag, firstn_all, firstn_O, app_nil_r.
    exists rest. auto. }
  induction text as [|c text IH]; intros blockMatch.
  - cbn [matchJsonBlock].
    destruct (blockAt []) as [[captured rest]|] eqn:E; [|discriminate].
    intros H; inversion H; subst blockMatch. cbn [matched group1].
    destruct (Hhere _ _ _ E) as (after & Ht & Hshape & Htrim).
    exists [], after. repeat split; auto.
    intros b1 x b2 Hb. destruct b1; discriminate.
  - cbn [matchJsonBlock].
    destruct (blockAt (c :: text)) as [[captured rest]|] eqn:E.
    + intros H; inversion H; subst blockMatch. cbn [matched group1].
      destruct (Hhere _ _ _ E) as (after & Ht & Hshape & Htrim).
      exists [], after. repeat split; auto.
      intros b1 x b2 Hb. destruct b1; discriminate.
    + intros H. destruct (IH _ H) as (before & after & -> & Hshape & Htrim
                                      & Hleft).
      exists (c :: before), after. repeat split; auto.
      intros b1 x b2 Hb. destruct b1 as [|b0 b1]; simpl in Hb;
        inversion Hb; subst.
      * exact E.
      * eapply Hleft. reflexivity.
Qed.

Lemma removeFirst_here (pattern s rest : jsstring) :
  stripPrefix pattern s = Some rest -> removeFirst pattern s = rest.
Proof. intros H. destruct s; cbn [removeFirst]; now rewrite H. Qed.

Lemma removeFirst_leftmost (m before after : jsstring) :
  (forall b1 x b2, before = b1 ++ x :: b2 ->
                   stripPrefix m (x :: b2 ++ m ++ after) = None) ->
  removeFirst m (before ++ m ++ after) = before ++ after.
Proof.
  induction before as [|c before IH]; intros Hleft.
  - apply removeFirst_here. now apply stripPrefix_some.
  - cbn [app removeFirst]. rewrite (Hleft [] c before eq_refl). f_equal.
    apply IH. intros b1 x b2 Hb. apply (Hleft (c :: b1) x b2).
    now rewrite Hb.
Qed.

(** X15. When the regular expression finds a fenced block, the text is
    some text, the block and the rest; the block is the fence, an optional
    [json], white space, the captured payload, white space and the fence;
    the payload has no white space at either end; and
    [replace(blockMatch[0], '')] removes this very block, leaving the text
    before it and the text after it. *)
Theorem fenced_block_match (text : jsstring) (blockMatch : BlockMatch) :
  matchJsonBlock text = Some blockMatch ->
  exists before after,
    text = before ++ matched blockMatch ++ after
    /\ blockShape (matched blockMatch) (group1 blockMatch)
    /\ trim (group1 blockMatch) = group1 blockMatch
    /\ removeFirst (matched blockMatch) text = before ++ after.
Proof.
  intros H.
  destruct (matchJsonBlock_some _ _ H)
    as (before & after & -> & Hshape & Htrim & Hleft).
  exists before, after. repeat split; auto.
  apply removeFirst_leftmost. intros b1 x b2 Hb.
  destruct (stripPrefix (matched blockMatch)
              (x :: b2 ++ matched blockMatch ++ after)) as [r|] eqn:E;
    [|reflexivity].
  exfalso. apply stripPrefix_some in E.
  apply (blockAt_complete _ _ r Hshape). rewrite <- E.
  now apply (Hleft b1 x b2).
Qed.

Lemma fenced_block_match_witness :
  exists before after,
    twoBlocks
    = before
        ++ (js "```json" ++ jsq " {'a':1} " ++ js "```") ++ after
    /\ blockShape (js "```json" ++ jsq " {'a':1} " ++ js "```")
                  (jsq "{'a':1}")
    /\ trim (jsq "{'a':1}") = jsq "{'a':1}"
    /\ removeFirst (js "```json" ++ jsq " {'a':1} " ++ js "```") twoBlocks
       = before ++ after.
Proof.
  apply (fenced_block_match twoBlocks
           {| matched := js "```json" ++ jsq " {'a':1} " ++ js "```";
              group1 := jsq "{'a':1}" |}).
  vm_compute. reflexivity.
Defined.

(** ** Separator lines: the characters they hold *)

Lemma dropWhile_in (p : N -> bool) (s : jsstring) (c : N) :
  In c s -> In c (dropWhile p s) \/ p c = true.
Proof.
  induction s as [|x s IH]; simpl; [tauto|].
  destruct (p x) eqn:E; simpl; [|tauto].
  intros [->|H]; [now right | auto].
Qed.

Lemma trim_in (s : jsstring) (c : N) :
  In c s -> In c (trim s) \/ is_ws c = true.
Proof.
  intros H. unfold trim, trimEnd, trimStart.
  destruct (dropWhile_in is_ws s c H) as [H1|H1]; [|now right].
  apply in_rev in H1.
  destruct (dropWhile_in is_ws _ c H1) as [H2|H2]; [|now right].
  left. now apply in_rev in H2.
Qed.

Lemma stripPipes_in (s : jsstring) (c : N) :
  In c s -> In c (stripPipes s) \/ c = Char.pipe.
Proof.
  intros H. unfold stripPipes.
  assert (H1 : In c (stripLeadingPipe s) \/ c = Char.pipe).
  { destruct s as [|x s]; simpl in *; [tauto|].
    destruct (N.eqb_spec x Char.pipe) as [->|]; simpl; [|tauto].
    destruct H as [<-|H]; auto. }
  destruct H1 as [H1|H1]; [|now right].
  unfold stripTrailingPipe.
  destruct (rev (stripLeadingPipe s)) as [|x r] eqn:E; [now left|].
  destruct (N.eqb_spec x Char.pipe) as [->|]; [|now left].
  apply in_rev in H1. rewrite E in H1.
  destruct H1 as [<-|H1]; [now right|]. left. now apply in_rev in H1.
Qed.

Lemma split_in (sep : N) (s : jsstring) (c : N) :
  In c s -> c = sep \/ exists seg, In seg (split sep s) /\ In c seg.
Proof.
  induction s as [|x s IH]; simpl; [tauto|].
  intros [<-|H].
  - destruct (N.eqb_spec x sep) as [->|]; [now left|]. right.
    destruct (split sep s) as [|seg segs].
    + exists [x]. simpl. auto.
    + exists (x :: seg). simpl. auto.
  - destruct (IH H) as [->|(seg & Hseg & Hc)]; [now left|]. right.
    destruct (N.eqb x sep).
    + exists seg. simpl. auto.
    + destruct (split sep s) as [|seg0 segs]; [destruct Hseg|].
      destruct Hseg as [<-|Hseg].
      * exists (x :: seg0). simpl. auto.
      * exists seg. simpl. auto.
Qed.

Lemma SegmentShape_chars (segment : jsstring) (c : N) :
  SegmentShape segment -> In c segment ->
  is_ws c = true \/ c = Char.colon \/ c = Char.dash.
Proof.
  intros (before & after & colon1 & colon2 & n & Hb & Ha & ->) Hin.
  unfold allWs in *. rewrite Forall_forall in Hb, Ha.
  repeat (apply in_app_or in Hin; destruct Hin as [Hin|Hin]); auto.
  - destruct colon1; simpl in Hin; [|tauto]. destruct Hin as [<-|[]]. auto.
  - apply repeat_spec in Hin. auto.
  - destruct colon2; simpl in Hin; [|tauto]. destruct Hin as [<-|[]]. auto.
Qed.

(** X16. A separator line holds nothing but pipes, dashes, colons and
    white space: a line with any other character is no separator line. *)
Theorem isSeparatorLine_chars (line : jsstring) (c : N) :
  isSeparatorLine line = true -> In c line ->
  c = Char.pipe \/ c = Char.dash \/ c = Char.colon \/ is_ws c = true.
Proof.
  unfold isSeparatorLine. intros Hsep Hin.
  destruct (negb (includes Char.dash (trim line))
            || negb (includes Char.pipe (trim line))); [discriminate|].
  apply andb_true_iff in Hsep. destruct Hsep as [_ Hall].
  apply forallb_segmentMatches in Hall. rewrite Forall_forall in Hall.
  destruct (trim_in line c Hin) as [H1|H1]; [|tauto].
  destruct (stripPipes_in _ c H1) as [H2|H2]; [|tauto].
  destruct (split_in Char.pipe _ c H2) as [H3|(seg & Hseg & Hc)]; [tauto|].
  destruct (SegmentShape_chars seg c (Hall seg Hseg) Hc) as [H|[H|H]]; tauto.
Qed.

Lemma isSeparatorLine_chars_witness :
  58%N = Char.pipe \/ 58%N = Char.dash \/ 58%N = Char.colon
  \/ is_ws 58 = true.
Proof.
  apply (isSeparatorLine_chars (js "| :--- | ---: |") 58).
  - reflexivity.
  - vm_compute. tauto.
Defined.

(** ** The header and the columns of the separator *)

Lemma split_length_cons (sep c : N) (s : jsstring) :
  c <> sep -> length (split sep (c :: s)) = length (split sep s).
Proof.
  intros Hne. simpl. destruct (N.eqb_spec c sep); [contradiction|].
  pose proof (split_not_nil sep s). destruct (split sep s); [congruence|].
  reflexivity.
Qed.

Lemma split_length_app (sep : N) (a b : jsstring) :
  S (length (split sep (a ++ b)))
  = length (split sep a) + length (split sep b).
Proof.
  induction a as [|c a IH]; [reflexivity|].
  destruct (N.eqb_spec c sep) as [->|Hne].
  - cbn [app split]. rewrite N.eqb_refl. cbn [length]. lia.
  - change ((c :: a) ++ b) with (c :: (a ++ b)).
    now rewrite !split_length_cons by exact Hne.
Qed.

Lemma split_length_ws (s : jsstring) :
  allWs s -> length (split Char.pipe s) = 1.
Proof.
  induction 1 as [|c s Hc _ IH]; [reflexivity|].
  rewrite split_length_cons; [exact IH|]. intros ->. discriminate.
Qed.

Lemma split_length_padded (l m r : jsstring) :
  allWs l -> allWs r ->
  length (split Char.pipe (l ++ m ++ r)) = length (split Char.pipe m).
Proof.
  intros Hl Hr.
  pose proof (split_length_app Char.pipe l (m ++ r)) as H1.
  pose proof (split_length_app Char.pipe m r) as H2.
  rewrite (split_length_ws l Hl) in H1. rewrite (split_length_ws r Hr) in H2.
  lia.
Qed.

Lemma trimEnd_cons (c : N) (r : jsstring) :
  is_ws c = false -> trimEnd (c :: r) = c :: trimEnd r.
Proof.
  intros Hc. unfold trimEnd. simpl rev.
  rewrite dropWhile_snoc_stop by exact Hc. rewrite rev_app_distr. reflexivity.
Qed.

Lemma trimEnd_split (t : jsstring) :
  exists rw, allWs rw /\ t = trimEnd t ++ rw.
Proof.
  destruct (dropWhile_split is_ws (rev t)) as (w & Hw & Hrev).
  exists (rev w). split; [now apply Forall_rev|].
  unfold trimEnd. rewrite <- rev_app_distr, <- Hrev. symmetry.
  apply rev_involutive.
Qed.

Lemma dropWhile_app_stop (p : N -> bool) (a b : jsstring) :
  dropWhile p a <> [] -> dropWhile p (a ++ b) = dropWhile p a ++ b.
Proof.
  induction a as [|c a IH]; simpl; [congruence|].
  destruct (p c); [exact IH | reflexivity].
Qed.

(** The two ways of stripping the outer pipes of a line, the one of
    [isSeparatorLine] and the one of the scanner, differ by white space at
    the ends only. *)
Lemma stripWsPipes_stripPipes (s : jsstring) :
  exists l r,
    allWs l /\ allWs r /\ stripWsPipes s = l ++ stripPipes (trim s) ++ r.
Proof.
  destruct (dropWhile_split is_ws s) as (lw & Hlw & Hs).
  unfold stripWsPipes, stripLeadingWsPipe, stripPipes, trim, trimStart.
  destruct (dropWhile is_ws s) as [|c t0] eqn:Et.
  - (* only white space *)
    rewrite app_nil_r in Hs. subst lw.
    unfold stripTrailingPipeWs.
    rewrite (dropWhile_all is_ws (rev s)) by now apply Forall_rev.
    exists s, []. split; [exact Hlw|]. split; [constructor|].
    now rewrite app_nil_r.
  - assert (Hc : is_ws c = false).
    { apply (dropWhile_fixed_head is_ws c t0).
      rewrite <- Et. apply dropWhile_idem. }
    rewrite (trimEnd_cons c t0 Hc). unfold stripLeadingPipe.
    destruct (N.eqb_spec c Char.pipe) as [->|Hne].
    + (* a leading pipe *)
      unfold stripTrailingPipeWs, stripTrailingPipe.
      replace (rev (trimEnd t0)) with (dropWhile is_ws (rev t0))
        by (unfold trimEnd; now rewrite rev_involutive).
      destruct (dropWhile is_ws (rev t0)) as [|x q].
      * destruct (trimEnd_split t0) as (rw & Hrw & Ht0).
        exists [], rw. split; [constructor|]. split; [exact Hrw|].
        exact Ht0.
      * destruct (N.eqb x Char.pipe).
        -- exists [], []. repeat split; try constructor.
           now rewrite app_nil_r.
        -- destruct (trimEnd_split t0) as (rw & Hrw & Ht0).
           exists [], rw. split; [constructor|]. split; [exact Hrw|].
           exact Ht0.
    + (* no leading pipe *)
      rewrite <- (trimEnd_cons c t0 Hc).
      unfold stripTrailingPipeWs, stripTrailingPipe.
      replace (rev (trimEnd (c :: t0)))
        with (dropWhile is_ws (rev (c :: t0)))
        by (unfold trimEnd; now rewrite rev_involutive).
      assert (Hstop : dropWhile is_ws (rev (c :: t0)) <> []).
      { simpl rev. rewrite dropWhile_snoc_stop by exact Hc.
        destruct (dropWhile is_ws (rev t0)); discriminate. }
      assert (Hrev : dropWhile is_ws (rev s)
                     = dropWhile is_ws (rev (c :: t0)) ++ rev lw).
      { rewrite Hs at 1. rewrite rev_app_distr.
        now apply dropWhile_app_stop. }
      rewrite Hrev.
      destruct (dropWhile is_ws (rev (c :: t0))) as [|x q]; [congruence|].
      cbn [app]. destruct (N.eqb x Char.pipe).
      * exists lw, []. split; [exact Hlw|]. split; [constructor|].
        now rewrite rev_app_distr, rev_involutive, app_nil_r.
      * destruct (trimEnd_split (c :: t0)) as (rw & Hrw & Ht).
        exists lw, rw. split; [exact Hlw|]. split; [exact Hrw|].
        rewrite <- Ht. exact Hs.
Qed.

(** X17. The number of columns the scanner compares the header with is
    the number of segments [isSeparatorLine] checks, although the two are
    computed by different expressions; so a table found by the scanner
    has as many headers as its separator line has segments. *)
Theorem header_count_is_separator_segments
  (markdown : jsstring) (t : ComparisonTableData) :
  (forall line,
      length (split Char.pipe (stripWsPipes line))
      = length (split Char.pipe (stripPipes (trim line))))
  /\ (table (_internalParseMarkdownForTable markdown) = Some t ->
      exists sep,
        In sep (split Char.lf markdown)
        /\ isSeparatorLine sep = true
        /\ length (headers t)
           = length (split Char.pipe (stripPipes (trim sep)))).
Proof.
  assert (Hcount : forall line,
             length (split Char.pipe (stripWsPipes line))
             = length (split Char.pipe (stripPipes (trim line)))).
  { intros line.
    destruct (stripWsPipes_stripPipes line) as (l & r & Hl & Hr & ->).
    now apply split_length_padded. }
  split; [exact Hcount|].
  unfold _internalParseMarkdownForTable.
  destruct (findTable 0 (split Char.lf markdown))
    as [[[start hs] rowsData]|] eqn:Efind; [|discriminate].
  destruct (findTable_split _ _ _ _ _ Efind)
    as (before & header & sep & following & Hlines & _ & Hsep & _ & Hlen & _).
  destruct (length rowsData =? 0); [discriminate|].
  simpl. intros H; inversion H; subst t. simpl.
  exists sep. split; [|split; [exact Hsep|]].
  - rewrite Hlines. apply in_or_app. right. right. now left.
  - now rewrite length_map, Hlen, Hcount.
Qed.

Lemma header_count_is_separator_segments_witness :
  exists sep,
    In sep (split Char.lf gridExample)
    /\ isSeparatorLine sep = true
    /\ length (headers (gridTable [js "Name"; js "Score"]
                                  [[js "Alice"; js "90"]; [js "Bob"; js "85"]]))
       = length (split Char.pipe (stripPipes (trim sep))).
Proof.
  apply (proj2 (header_count_is_separator_segments gridExample
                  (gridTable [js "Name"; js "Score"]
                             [[js "Alice"; js "90"]; [js "Bob"; js "85"]]))).
  vm_compute. reflexivity.
Defined.

(** ** The grid scanner: a table that is there is found *)

Lemma collectRows_rows (width : nat) (rowLines after : list jsstring) :
  Forall (fun line => includes Char.pipe line = true
                      /\ length (parseRow line) = width) rowLines ->
  match after with
  | [] => True
  | line :: _ => includes Char.pipe line = false
                 \/ length (parseRow line) <> width
  end ->
  collectRows width (rowLines ++ after) = map parseRow rowLines.
Proof.
  intros Hrows Hstop. induction Hrows as [|line rowLines [Hp Hw] _ IH].
  - destruct after as [|line after]; [reflexivity|]. simpl.
    destruct Hstop as [Hp|Hw]; [now rewrite Hp|].
    destruct (includes Char.pipe line); [|reflexivity]. simpl.
    destruct (Nat.eqb_spec (length (parseRow line)) width);
      [contradiction | reflexivity].
  - simpl. rewrite Hp. simpl. rewrite Hw, Nat.eqb_refl. simpl.
    now rewrite IH.
Qed.

(** X18. When the lines of a text are some lines, a header line, a
    separator line, at least one row line and the lines after, where the
    header and separator are the first pair of consecutive lines of which
    the second is a separator line with as many columns as the first has
    cells, every row line has a pipe and as many cells as the header, and
    the lines after are none or start with a line that is no row, the
    scanner returns the parsed header and rows as the table and the lines
    before and after, joined and trimmed, as the remaining text. *)
Theorem grid_table_found
  (markdown : jsstring) (before : list jsstring) (header sep : jsstring)
  (rowLines after : list jsstring) :
  split Char.lf markdown = before ++ header :: sep :: rowLines ++ after ->
  noHeaderPair (before ++ [header]) = true ->
  headerPair header sep = true ->
  rowLines <> [] ->
  Forall (fun line => includes Char.pipe line = true
                      /\ length (parseRow line) = length (parseRow header))
         rowLines ->
  match after with
  | [] => True
  | line :: _ => includes Char.pipe line = false
                 \/ length (parseRow line) <> length (parseRow header)
  end ->
  _internalParseMarkdownForTable markdown
  = {| remainingText := trim (join [Char.lf] (before ++ after));
       table := Some (gridTable (parseRow header) (map parseRow rowLines)) |}.
Proof.
  intros Hlines Hno Hpair Hne Hrows Hstop.
  unfold _internalParseMarkdownForTable.
  rewrite Hlines, findTable_skip by exact Hno.
  rewrite findTable_here by exact Hpair.
  rewrite collectRows_rows by assumption.
  rewrite length_map.
  destruct rowLines as [|row0 rowLines']; [congruence|].
  cbn [length Nat.eqb]. f_equal. f_equal.
  change (header :: sep :: (row0 :: rowLines') ++ after)
    with ((header :: sep :: row0 :: rowLines') ++ after).
  rewrite !filterIndex_app.
  rewrite filterIndex_all, filterIndex_none, filterIndex_all;
    [reflexivity| | |].
  - intros j Hj. simpl in Hj. apply orb_true_iff. right.
    apply Nat.ltb_lt. simpl. lia.
  - intros j Hj. simpl in Hj. apply orb_false_iff.
    split; [apply Nat.ltb_ge | apply Nat.ltb_ge]; simpl; lia.
  - intros j Hj. apply orb_true_iff. left. apply Nat.ltb_lt. simpl. lia.
Qed.

Lemma grid_table_found_witness :
  _internalParseMarkdownForTable gridExample
  = {| remainingText :=
         trim (join [Char.lf] ([js "Intro text."; []]
                                 ++ [[]; js "Outro text."]));
       table := Some (gridTable (parseRow (js "| Name | Score |"))
                                (map parseRow [js "| Alice | 90 |";
                                               js "| Bob | 85 |"])) |}
  /\ _internalParseMarkdownForTable separatorAsRow
     = {| remainingText := trim (join [Char.lf] ([] ++ []));
          table := Some (gridTable (parseRow (js "x"))
                                   (map parseRow [js "|---|"; js "| a |"])) |}.
Proof.
  split.
  - apply (grid_table_found gridExample [js "Intro text."; []]
             (js "| Name | Score |") (js "| --- | --- |")
             [js "| Alice | 90 |"; js "| Bob | 85 |"]
             [[]; js "Outro text."]).
    + vm_compute. reflexivity.
    + vm_compute. reflexivity.
    + vm_compute. reflexivity.
    + discriminate.
    + repeat constructor.
    + left. vm_compute. reflexivity.
  - apply (grid_table_found separatorAsRow [] (js "x") (js "|---|")
             [js "|---|"; js "| a |"] []).
    + vm_compute. reflexivity.
    + vm_compute. reflexivity.
    + vm_compute. reflexivity.
    + discriminate.
    + repeat constructor.
    + exact I.
Defined.

(** X19. On a text without a backtick the extractor is the grid scanner:
    it returns what [_internalParseMarkdownForTable] returns on the
    text. *)
Theorem extract_without_fence_is_grid_scan (responseText : jsstring) :
  ~ In Char.backtick responseText ->
  extractAndParseMarkdownTable responseText
  = _internalParseMarkdownForTable responseText.
Proof.
  intros Htick. unfold extractAndParseMarkdownTable.
  destruct responseText as [|c r]; [reflexivity|].
  cbn [length Nat.eqb]. rewrite matchJsonBlock_no_backtick; [reflexivity|].
  intros H. apply Htick. now apply trim_incl.
Qed.

Lemma extract_without_fence_is_grid_scan_witness :
  extractAndParseMarkdownTable gridExample
  = _internalParseMarkdownForTable gridExample.
Proof.
  apply extract_without_fence_is_grid_scan.
  apply includes_false. vm_compute. reflexivity.
Defined.
